(** * Monster summoning (mon-summon.c): a shallow embedding and its properties

    The embedding follows src/mon-summon.c function by function.  C [int]s
    are integers of [Z]; every quantity handled here (registry sizes, monster
    indices, speeds, depths, levels) stays far from the limits of [int], so
    no wrap-around is written out, and [/] on [int] is [Z.quot] (truncation
    toward zero).  Behaviour that C leaves undefined (reading through a null
    pointer, indexing outside an array, [strcmp] on a null string) is the
    [Fault] branch of the [result] type. *)

From Stdlib Require Import ZArith Lia Bool.
From stdpp Require Import base list strings.

Local Open Scope Z_scope.

(** ** Faults *)

Inductive fault : Type :=
| NullString     (* strcmp on a null string *)
| NullPointer    (* member access through a null pointer *)
| OutOfBounds.   (* array access outside the allocation *)

Inductive result (A : Type) : Type :=
| Ok (a : A)
| Fault (f : fault).

Arguments Ok {A} a.
Arguments Fault {A} f.

Definition bind {A B : Type} (m : result A) (k : A -> result B) : result B :=
  match m with
  | Ok a => k a
  | Fault f => Fault f
  end.

Notation "'do' x <- e ; k" := (bind e (fun x => k))
  (at level 10, x name, e at level 100, k at level 200).
Notation "'do' ' p <- e ; k" := (bind e (fun x => match x with p => k end))
  (at level 10, p pattern, e at level 100, k at level 200).

(** [a[i]] for a C array held in a list: a fault outside the allocation. *)
Definition arr_get {A : Type} (a : list A) (i : Z) : result A :=
  if i <? 0 then Fault OutOfBounds
  else match a !! Z.to_nat i with
       | Some x => Ok x
       | None => Fault OutOfBounds
       end.

(** [a[i] = x]. *)
Definition arr_set {A : Type} (a : list A) (i : Z) (x : A) : result (list A) :=
  if (0 <=? i) && (i <? Z.of_nat (length a))
  then Ok (<[Z.to_nat i := x]> a)
  else Fault OutOfBounds.

(** [p->...] for a pointer that may be null. *)
Definition deref {A : Type} (p : option A) : result A :=
  match p with
  | Some x => Ok x
  | None => Fault NullPointer
  end.

(** The [streq(a, b)] macro, [!strcmp(a, b)], as the registry scan uses it:
    the first argument has been tested against null, the second has not. *)
Definition streq (a : string) (b : option string) : result bool :=
  match b with
  | Some s => Ok (String.eqb a s)
  | None => Fault NullString
  end.

(** ** Data model *)

(** [struct loc]. *)
Record loc : Type := mk_loc { loc_x : Z; loc_y : Z }.

(** A [struct monster_base *]: the address of the base, [0] for null.  The
    source only ever compares these pointers. *)
Definition monster_base_ptr : Type := Z.

(** [struct summon].  The [next] link is the list structure of the parsed
    input and is null in every array element; [bases] is the chain of
    [struct monster_base_list] nodes, in order. *)
Record summon : Type := mk_summon {
  name : option string;
  message_type : Z;
  unique_allowed : bool;
  bases : list monster_base_ptr;
  race_flag : Z;
  fallback_name : option string;
  fallback : Z;
  desc : option string
}.

(** What [mem_zalloc] leaves in an array element. *)
Definition zero_summon : summon :=
  {| name := None; message_type := 0; unique_allowed := false; bases := [];
     race_flag := 0; fallback_name := None; fallback := 0; desc := None |}.

Definition set_fallback (s : summon) (idx : Z) : summon :=
  {| name := name s; message_type := message_type s;
     unique_allowed := unique_allowed s; bases := bases s;
     race_flag := race_flag s; fallback_name := fallback_name s;
     fallback := idx; desc := desc s |}.

(** The fields of [struct monster_race] that this file reads.  [flags] is
    the race's flag set, read only through [rf_has]. *)
Record monster_race : Type := mk_race {
  base : monster_base_ptr;
  flags : Z;
  level : Z;
  speed : Z
}.

(** The fields of [struct monster] that this file reads or writes;
    [m_timed_hold] is [m_timed[MON_TMD_HOLD]].  A null [race] marks a dead
    monster. *)
Record monster : Type := mk_monster {
  race : option monster_race;
  grid : loc;
  energy : Z;
  m_timed_hold : Z
}.

Definition set_energy (m : monster) (e : Z) : monster :=
  {| race := race m; grid := grid m; energy := e;
     m_timed_hold := m_timed_hold m |}.

Definition set_m_timed_hold (m : monster) (t : Z) : monster :=
  {| race := race m; grid := grid m; energy := energy m; m_timed_hold := t |}.

(** [struct monster_group_info]. *)
Record monster_group_info : Type := mk_group_info {
  index : Z;
  role : Z
}.

(** The level ([struct chunk]): the monster array ([cave_monster(c, i)] is
    the address of element [i], element [0] is not a monster), the index of
    the monster now acting, and the terrain, which only the collaborators
    look into. *)
Record chunk (Sq : Type) : Type := mk_chunk {
  monsters : list monster;
  mon_current : Z;
  squares : Sq
}.

Arguments mk_chunk {Sq} _ _ _.
Arguments monsters {Sq} _.
Arguments mon_current {Sq} _.
Arguments squares {Sq} _.

Definition cave_monster_max {Sq : Type} (c : chunk Sq) : Z :=
  Z.of_nat (length (monsters c)).

Definition cave_monster {Sq : Type} (c : chunk Sq) (i : Z) : result monster :=
  arr_get (monsters c) i.

Definition set_monsters {Sq : Type} (c : chunk Sq) (ms : list monster) : chunk Sq :=
  {| monsters := ms; mon_current := mon_current c; squares := squares c |}.

(** The fields of [struct player] that this file reads: [player->depth] and
    [player->state.speed]. *)
Record player_t : Type := mk_player {
  depth : Z;
  state_speed : Z
}.

(** The program state this file touches: its four globals, the restriction
    of the weighted pool, [cave], [player] and the random number generator. *)
Record state (Sq R : Type) : Type := mk_state {
  summon_specific_type : Z;
  summon_max : Z;
  kin_base : monster_base_ptr;
  summons : list summon;
  mon_num_hook : option (monster_race -> result bool);
  cave : chunk Sq;
  player : player_t;
  rand : R
}.

Arguments mk_state {Sq R} _ _ _ _ _ _ _ _.
Arguments summon_specific_type {Sq R} _.
Arguments summon_max {Sq R} _.
Arguments kin_base {Sq R} _.
Arguments summons {Sq R} _.
Arguments mon_num_hook {Sq R} _.
Arguments cave {Sq R} _.
Arguments player {Sq R} _.
Arguments rand {Sq R} _.

Section Setters.
Context {Sq R : Type}.
Implicit Type st : state Sq R.

Definition set_summon_specific_type st (t : Z) : state Sq R :=
  mk_state t (summon_max st) (kin_base st) (summons st) (mon_num_hook st)
           (cave st) (player st) (rand st).

Definition set_registry st (n : Z) (a : list summon) : state Sq R :=
  mk_state (summon_specific_type st) n (kin_base st) a (mon_num_hook st)
           (cave st) (player st) (rand st).

Definition set_summons st (a : list summon) : state Sq R :=
  set_registry st (summon_max st) a.

Definition set_cave st (c : chunk Sq) : state Sq R :=
  mk_state (summon_specific_type st) (summon_max st) (kin_base st)
           (summons st) (mon_num_hook st) c (player st) (rand st).

Definition set_rand st (r : R) : state Sq R :=
  mk_state (summon_specific_type st) (summon_max st) (kin_base st)
           (summons st) (mon_num_hook st) (cave st) (player st) r.

(** Modelled from the spec: [get_mon_num_prep] is defined in mon-make.c,
    outside mon-summon.c.  The spec gives its contract:
    [restrict(predicate)] limits the weighted pool to the races the
    predicate admits, [restrict(none)] resets it to the unrestricted pool. *)
Definition get_mon_num_prep (hook : option (monster_race -> result bool)) st
  : state Sq R :=
  mk_state (summon_specific_type st) (summon_max st) (kin_base st)
           (summons st) hook (cave st) (player st) (rand st).
End Setters.

(** ** Collaborators

    Everything this file calls but does not define: the random number
    generator, the terrain queries, monster movement and placement, the
    grouping service, the weighted draw, and the constants and the flag test
    of the headers it includes.  A pointer to a monster of the level is
    passed as its index in the monster array. *)
Class World (Sq R : Type) : Type := {
  (* z-rand *)
  randint0 : Z -> R -> Z * R;
  (* cave *)
  scatter : chunk Sq -> loc -> Z -> bool -> R -> loc * R;
  square_isempty : chunk Sq -> loc -> bool;
  square_iswarded : chunk Sq -> loc -> bool;
  square_isdecoyed : chunk Sq -> loc -> bool;
  los : chunk Sq -> loc -> loc -> bool;
  square_monster : chunk Sq -> loc -> option Z;
  (* mon-util, mon-make, mon-group *)
  monster_swap : chunk Sq -> loc -> loc -> chunk Sq;
  monster_wake : chunk Sq -> Z -> bool -> Z -> chunk Sq;
  place_new_monster :
    chunk Sq -> loc -> monster_race -> bool -> bool -> monster_group_info ->
    Z -> R -> bool * chunk Sq * R;
  summon_group : chunk Sq -> Z -> option monster_group_info;
  get_mon_num :
    option (monster_race -> result bool) -> Z -> R -> option monster_race * R;
  (* monster.h, mon-group.h, obj-util.h *)
  rf_has : Z -> Z -> bool;
  RF_UNIQUE : Z;
  MON_GROUP_SUMMON : Z;
  ORIGIN_DROP_SUMMON : Z
}.

(** The documented range of [randint0(M)]: [0 <= X < M], and [0] when there
    is nothing to choose from. *)
Definition randint0_in_range {Sq R : Type} (W : World Sq R) : Prop :=
  forall (m : Z) (r : R),
    0 <= fst (randint0 m r) /\ fst (randint0 m r) < Z.max m 1.

Section Registry.
Context {Sq R : Type}.
Implicit Type st : state Sq R.

(** The loop of [summon_name_to_idx] from index [i], with [n] iterations
    left. *)
Fixpoint name_scan (nm : option string) (a : list summon) (i : Z) (n : nat)
  : result Z :=
  match n with
  | O => Ok (-1)
  | S n' =>
      match nm with
      | None => name_scan nm a (i + 1) n'
      | Some s =>
          do rec <- arr_get a i;
          do eq <- streq s (name rec);
          if eq then Ok i else name_scan nm a (i + 1) n'
      end
  end.

Definition summon_name_to_idx (nm : option string) st : result Z :=
  name_scan nm (summons st) 0 (Z.to_nat (summon_max st)).

Definition summon_message_type (summon_type : Z) st : result Z :=
  do rec <- arr_get (summons st) summon_type;
  Ok (message_type rec).

Definition summon_fallback_type (summon_type : Z) st : result Z :=
  do rec <- arr_get (summons st) summon_type;
  Ok (fallback rec).

Definition summon_desc (type : Z) st : result (option string) :=
  if (type <? 0) || (type >=? summon_max st) then Ok None
  else
    do rec <- arr_get (summons st) type;
    Ok (desc rec).

(** The copy loop of [create_summons]: the nodes of the parsed list go to
    consecutive elements of the array, starting at [count]. *)
Fixpoint copy_summons (parsed : list summon) (a : list summon) (count : Z)
  : result (list summon) :=
  match parsed with
  | [] => Ok a
  | s :: next =>
      do a' <- arr_set a count s;
      copy_summons next a' (count + 1)
  end.

(** The loop that adds the indices of the fallback summons, from index
    [count], with [n] iterations left. *)
Fixpoint resolve_fallbacks (count : Z) (n : nat) st : result (state Sq R) :=
  match n with
  | O => Ok st
  | S n' =>
      do rec <- arr_get (summons st) count;
      do idx <- summon_name_to_idx (fallback_name rec) st;
      do a' <- arr_set (summons st) count (set_fallback rec idx);
      resolve_fallbacks (count + 1) n' (set_summons st a')
  end.

Definition create_summons (parsed : list summon) st : result (state Sq R) :=
  (* Count the entries *)
  let summon_max0 := Z.of_nat (length parsed) in
  (* Allocate the direct access list array and copy the data to it *)
  let a0 := replicate (Z.to_nat (summon_max0 + 1)) zero_summon in
  do a <- copy_summons parsed a0 0;
  let st1 := set_registry st (summon_max0 + 1) a in
  (* Add indices of fallback summons *)
  resolve_fallbacks 0 (Z.to_nat (summon_max st1)) st1.
End Registry.

Section Summoning.
Context {Sq R : Type} {W : World Sq R}.
Implicit Type st : state Sq R.

(** The walk over the [bases] chain in [summon_specific_okay]: [true] when
    control leaves the [while] (null chain, or a match and [break]),
    [false] when the function returns false from inside it. *)
Fixpoint bases_loop (b : monster_base_ptr) (l : list monster_base_ptr) : bool :=
  match l with
  | [] => true
  | x :: next =>
      if b =? x then true
      else match next with
           | [] => false
           | _ :: _ => bases_loop b next
           end
  end.

Definition summon_specific_okay (rc : monster_race) st : result bool :=
  do summon <- arr_get (summons st) (summon_specific_type st);
  let unique := rf_has (flags rc) RF_UNIQUE in
  (* Forbid uniques? *)
  if negb (unique_allowed summon) && unique then Ok false
  (* A valid base and no match means disallowed *)
  else if negb (bases_loop (base rc) (bases summon)) then Ok false
  (* A valid race flag and no match means disallowed *)
  else if negb (race_flag summon =? 0)
          && negb (rf_has (flags rc) (race_flag summon)) then Ok false
  else
    (* Special case - summon kin *)
    do kin <- summon_name_to_idx (Some "KIN"%string) st;
    if summon_specific_type st =? kin
    then Ok (negb unique && (base rc =? kin_base st))
    else Ok true.

Definition can_call_monster (g : loc) (mon : monster) st : result bool :=
  match race mon with
  | None => Ok false
  | Some rc =>
      do okay <- summon_specific_okay rc st;
      if negb okay then Ok false
      else if los (cave st) g (grid mon) then Ok false
      else Ok true
  end.

(** First pass of [call_monster]: count the good monsters from index [i],
    with [n] iterations left. *)
Fixpoint count_good (g : loc) st (i : Z) (n : nat) (mon_count : Z) : result Z :=
  match n with
  | O => Ok mon_count
  | S n' =>
      do mon <- cave_monster (cave st) i;
      do good <- can_call_monster g mon st;
      count_good g st (i + 1) n' (if good then mon_count + 1 else mon_count)
  end.

(** Second pass: store the indices of the good monsters. *)
Fixpoint store_good (g : loc) st (i : Z) (n : nat) (mon_count : Z)
         (mon_indices : list Z) : result (Z * list Z) :=
  match n with
  | O => Ok (mon_count, mon_indices)
  | S n' =>
      do mon <- cave_monster (cave st) i;
      do good <- can_call_monster g mon st;
      if good
      then
        do a' <- arr_set mon_indices mon_count i;
        store_good g st (i + 1) n' (mon_count + 1) a'
      else store_good g st (i + 1) n' mon_count mon_indices
  end.

(** [call_monster] up to "Get the lucky monster": [None] when there is no
    good monster, else the index of the chosen monster and the generator
    after the draw. *)
Definition call_monster_pick (g : loc) st : result (option (Z * R)) :=
  let n := Z.to_nat (cave_monster_max (cave st) - 1) in
  do mon_count <- count_good g st 1 n 0;
  if mon_count =? 0 then Ok None
  else
    let mon_indices := replicate (Z.to_nat mon_count) 0 in
    do '(mon_count, mon_indices) <- store_good g st 1 n 0 mon_indices;
    (* Pick one *)
    let '(choice, r) := randint0 (mon_count - 1) (rand st) in
    do i <- arr_get mon_indices choice;
    Ok (Some (i, r)).

Definition call_monster (g : loc) st : result (Z * state Sq R) :=
  do pick <- call_monster_pick g st;
  match pick with
  | None => Ok (0, st)
  | Some (i, r) =>
      do mon <- cave_monster (cave st) i;
      (* Swap the monster *)
      let c1 := monster_swap (cave st) (grid mon) g in
      (* Wake it up, make it aware *)
      let c2 := monster_wake c1 i false 100 in
      (* Set it's energy to 0 *)
      do mon <- cave_monster c2 i;
      do ms <- arr_set (monsters c2) i (set_energy mon 0);
      do rc <- deref (race mon);
      Ok (level rc, set_rand (set_cave st (set_monsters c2 ms)) r)
  end.

(** The distance picked on attempt [i] of the location search. *)
Definition scatter_distance (i : Z) : Z := Z.quot i 15 + 1.

Definition square_legal (c : chunk Sq) (near : loc) : bool :=
  if negb (square_isempty c near) then false
  else if square_iswarded c near || square_isdecoyed c near then false
  else true.

(** The location search of [summon_specific] from attempt [i], with [n]
    attempts left: the final [i], [near] and the generator. *)
Fixpoint location_search (c : chunk Sq) (g : loc) (i : Z) (n : nat)
         (near : loc) (r : R) : Z * loc * R :=
  match n with
  | O => (i, near, r)
  | S n' =>
      (* Pick a distance *)
      let d := scatter_distance i in
      (* Pick a location *)
      let '(near, r) := scatter c g d true r in
      if square_legal c near then (i, near, r)
      else location_search c g (i + 1) n' near r
  end.

(** The [if (delay)] block of [summon_specific]. *)
Definition delay_monster (mon : monster) (rc : monster_race) (p : player_t)
  : monster :=
  let turns := Z.quot (speed rc + 9 - state_speed p) 10 in
  let mon := set_energy mon 0 in
  if negb (turns =? 0)
  then (* Set timer directly to avoid resistance *)
    set_m_timed_hold mon turns
  else mon.

(** [call && type != summon_name_to_idx("UNIQUE") &&
     type != summon_name_to_idx("WRAITH")], evaluated left to right. *)
Definition use_calling_scheme (type : Z) (call : bool) st : result bool :=
  if call
  then
    do u <- summon_name_to_idx (Some "UNIQUE"%string) st;
    if negb (type =? u)
    then
      do w <- summon_name_to_idx (Some "WRAITH"%string) st;
      Ok (negb (type =? w))
    else Ok false
  else Ok false.

Definition summon_specific (g : loc) (lev type : Z) (delay call : bool) st
  : result (Z * state Sq R) :=
  (* Look for a location, allow up to 4 squares away; [near] is
     indeterminate until the first scatter *)
  let '(i, near, r) :=
    location_search (cave st) g 0 60 (mk_loc 0 0) (rand st) in
  let st := set_rand st r in
  (* Failure *)
  if i =? 60 then Ok (0, st)
  else
    (* Save the "summon" type *)
    let st := set_summon_specific_type st type in
    (* Use the new calling scheme if requested *)
    do calling <- use_calling_scheme type call st;
    if calling then call_monster near st
    else
      (* Prepare allocation table *)
      let st := get_mon_num_prep (Some (fun rc => summon_specific_okay rc st)) st in
      (* Pick a monster, using the level calculation *)
      let '(rc, r) :=
        get_mon_num (mon_num_hook st)
                    (Z.quot (depth (player st) + lev) 2 + 5) (rand st) in
      let st := set_rand st r in
      (* Prepare allocation table *)
      let st := get_mon_num_prep None st in
      (* Handle failure *)
      match rc with
      | None => Ok (0, st)
      | Some rc =>
          (* Put summons in the group of any summoner *)
          do info <-
            (if mon_current (cave st) >? 0
             then
               do group <- deref (summon_group (cave st) (mon_current (cave st)));
               Ok (mk_group_info (index group) MON_GROUP_SUMMON)
             else Ok (mk_group_info 0 0));
          (* Attempt to place the monster (awake, don't allow groups) *)
          let '(placed, c, r) :=
            place_new_monster (cave st) near rc false false info
                              ORIGIN_DROP_SUMMON (rand st) in
          let st := set_rand (set_cave st c) r in
          if negb placed then Ok (0, st)
          else
            (* Success, return the level of the monster *)
            do m <- deref (square_monster (cave st) near);
            do mon <- cave_monster (cave st) m;
            do mrace <- deref (race mon);
            (* If delay, try to let the player act before the summoned
               monsters, including holding faster monsters for the
               required number of turns *)
            if delay
            then
              let mon := delay_monster mon mrace (player st) in
              do ms <- arr_set (monsters (cave st)) m mon;
              Ok (level mrace, set_cave st (set_monsters (cave st) ms))
            else Ok (level mrace, st)
      end.

Definition select_shape (mon : monster) (type : Z) st
  : option monster_race * state Sq R :=
  (* Save the "summon" type *)
  let st := set_summon_specific_type st type in
  (* Prepare allocation table *)
  let st := get_mon_num_prep (Some (fun rc => summon_specific_okay rc st)) st in
  (* Pick a monster *)
  let '(rc, r) :=
    get_mon_num (mon_num_hook st) (depth (player st) + 5) (rand st) in
  let st := set_rand st r in
  (* Prepare allocation table *)
  let st := get_mon_num_prep None st in
  (rc, st).
End Summoning.

(** ** Specification-side definitions

    What the statements below compare the code with. *)
Section Specification.
Context {Sq R : Type} {W : World Sq R}.
Implicit Type st : state Sq R.

(** The registry scan on the list of records still to visit. *)
Fixpoint lookup_from (s : string) (l : list summon) (i : Z) : result Z :=
  match l with
  | [] => Ok (-1)
  | rec :: l' =>
      match name rec with
      | None => Fault NullString
      | Some s' => if String.eqb s s' then Ok i else lookup_from s l' (i + 1)
      end
  end.

Definition lookup_in (nm : option string) (a : list summon) : result Z :=
  match nm with
  | None => Ok (-1)
  | Some s => lookup_from s a 0
  end.

(** Fallback resolution, record by record, against a fixed table [a]. *)
Fixpoint resolve_list (a : list summon) (l : list summon) : result (list summon) :=
  match l with
  | [] => Ok []
  | rec :: l' =>
      do idx <- lookup_in (fallback_name rec) a;
      do rest <- resolve_list a l';
      Ok (set_fallback rec idx :: rest)
  end.

(** Two records that differ at most in the resolved fallback index. *)
Definition same_record (r r' : summon) : Prop :=
  exists idx, r' = set_fallback r idx.

(** The three filters of the eligibility predicate, one by one. *)
Definition passes_unique (s : summon) (rc : monster_race) : Prop :=
  unique_allowed s = false -> rf_has (flags rc) RF_UNIQUE = false.

Definition passes_bases (s : summon) (rc : monster_race) : Prop :=
  bases s <> [] -> base rc ∈ bases s.

Definition passes_race_flag (s : summon) (rc : monster_race) : Prop :=
  race_flag s <> 0 -> rf_has (flags rc) (race_flag s) = true.

(** Monster [i] of the level is a candidate for calling to [g]. *)
Definition is_good (g : loc) st (i : Z) : bool :=
  match (do mon <- cave_monster (cave st) i; can_call_monster g mon st) with
  | Ok true => true
  | _ => false
  end.

(** The candidates among monsters [i], ..., [i + n - 1], in index order. *)
Fixpoint goods (g : loc) st (i : Z) (n : nat) : list Z :=
  match n with
  | O => []
  | S n' => if is_good g st i then i :: goods g st (i + 1) n'
            else goods g st (i + 1) n'
  end.

Definition good_monsters (g : loc) st : list Z :=
  goods g st 1 (Z.to_nat (cave_monster_max (cave st) - 1)).

(** A cell the location search accepts: empty, not warded, not decoyed. *)
Definition legal_cell (c : chunk Sq) (near : loc) : Prop :=
  square_isempty c near = true /\ square_iswarded c near = false
  /\ square_isdecoyed c near = false.

(** The cells that [n] successive scatters produce from attempt [i] on,
    each within radius [floor(i / 15) + 1], and the generator after them. *)
Fixpoint scattered_cells (c : chunk Sq) (g : loc) (i : Z) (n : nat) (r : R)
  : list loc * R :=
  match n with
  | O => ([], r)
  | S n' =>
      let '(near, r1) := scatter c g (i / 15 + 1) true r in
      let '(l, r2) := scattered_cells c g (i + 1) n' r1 in
      (near :: l, r2)
  end.

(** The invocation of [summon_specific] reaches the weighted draw: a legal
    cell is found and the calling scheme is not used. *)
Definition reaches_draw (g : loc) (type : Z) (call : bool) st : Prop :=
  exists i near r,
    location_search (cave st) g 0 60 (mk_loc 0 0) (rand st) = (i, near, r)
    /\ i <> 60
    /\ use_calling_scheme type call
         (set_summon_specific_type (set_rand st r) type) = Ok false.
End Specification.

(** A world that differs from [W] in the weighted draw and in the placement
    service only. *)
Definition with_draw_and_placement {Sq R : Type} (W : World Sq R)
           (draw : option (monster_race -> result bool) -> Z -> R ->
                   option monster_race * R)
           (place : chunk Sq -> loc -> monster_race -> bool -> bool ->
                    monster_group_info -> Z -> R -> bool * chunk Sq * R)
  : World Sq R :=
  {| randint0 := randint0;
     scatter := scatter;
     square_isempty := square_isempty;
     square_iswarded := square_iswarded;
     square_isdecoyed := square_isdecoyed;
     los := los;
     square_monster := square_monster;
     monster_swap := monster_swap;
     monster_wake := monster_wake;
     place_new_monster := place;
     summon_group := summon_group;
     get_mon_num := draw;
     rf_has := rf_has;
     RF_UNIQUE := RF_UNIQUE;
     MON_GROUP_SUMMON := MON_GROUP_SUMMON;
     ORIGIN_DROP_SUMMON := ORIGIN_DROP_SUMMON |}.

(** The values of a C [int]. *)
Definition int_range (z : Z) : Prop := - 2 ^ 31 <= z <= 2 ^ 31 - 1.

(** A record that has a name, other than [s]. *)
Definition named_other (s : string) (rec : summon) : Prop :=
  exists s', name rec = Some s' /\ s' <> s.

(** Position [i] of the table [a] holds the first record named [s]: every
    record before it has a name, and another one. *)
Definition first_named (s : string) (a : list summon) (i : nat) : Prop :=
  (exists rec, a !! i = Some rec /\ name rec = Some s)
  /\ forall (k : nat) rec, (k < i)%nat -> a !! k = Some rec -> named_other s rec.

(** ** A small concrete world

    Collaborators simple enough to run, used to evaluate the functions above
    on explicit inputs. *)
Module Demo.

Definition loc_eqb (a b : loc) : bool :=
  (loc_x a =? loc_x b) && (loc_y a =? loc_y b).

Definition occupies (l : loc) (m : monster) : bool :=
  match race m with
  | Some _ => loc_eqb (grid m) l
  | None => false
  end.

Definition move (a b : loc) (m : monster) : monster :=
  if loc_eqb (grid m) a then mk_monster (race m) b (energy m) (m_timed_hold m)
  else if loc_eqb (grid m) b then mk_monster (race m) a (energy m) (m_timed_hold m)
  else m.

Fixpoint first_at (l : loc) (ms : list monster) (i : Z) : option Z :=
  match ms with
  | [] => None
  | m :: ms' => if occupies l m then Some i else first_at l ms' (i + 1)
  end.

(** The races of the demo pool. *)
Definition hound : monster_race := mk_race 7 0 12 110.
Definition ancient_hound : monster_race := mk_race 7 1 40 120.
Definition dragon : monster_race := mk_race 9 0 30 110.
Definition pool : list monster_race := [dragon; hound; ancient_hound].

Definition admitted (hook : option (monster_race -> result bool))
           (rc : monster_race) : bool :=
  match hook with
  | None => true
  | Some h => match h rc with Ok b => b | Fault _ => false end
  end.

(** Rows below zero are warded; a monster sees along its own row; a
    scatter lands [d] cells east of the origin; the generator is a counter. *)
#[global] Instance world : World unit Z := {|
  randint0 := fun m r => (if m <=? 1 then 0 else r mod m, r + 1);
  scatter := fun _ g d _ r => (mk_loc (loc_x g + d) (loc_y g), r + 1);
  square_isempty := fun c l => negb (existsb (occupies l) (monsters c));
  square_iswarded := fun _ l => loc_y l <? 0;
  square_isdecoyed := fun _ _ => false;
  los := fun _ a b => loc_y a =? loc_y b;
  square_monster := fun c l => first_at l (monsters c) 0;
  monster_swap := fun c a b => set_monsters c (map (move a b) (monsters c));
  monster_wake := fun c _ _ _ => c;
  place_new_monster := fun c l rc _ _ _ _ r =>
    (true, set_monsters c (monsters c ++ [mk_monster (Some rc) l 10 0]), r + 1);
  summon_group := fun _ i => Some (mk_group_info i 0);
  get_mon_num := fun hook _ r => (List.find (admitted hook) pool, r + 1);
  rf_has := fun f flag => if flag =? 0 then false else Z.testbit f (flag - 1);
  RF_UNIQUE := 1;
  MON_GROUP_SUMMON := 4;
  ORIGIN_DROP_SUMMON := 14
|}.

(** A parsed catalogue of three summon types. *)
Definition kin : summon :=
  mk_summon (Some "KIN"%string) 1 false [] 0 None 0 (Some "kin"%string).
Definition hounds : summon :=
  mk_summon (Some "HOUND"%string) 2 false [7] 0 (Some "KIN"%string) 0
            (Some "hounds"%string).
Definition uniques : summon :=
  mk_summon (Some "UNIQUE"%string) 3 true [] 1 None 0 (Some "a unique"%string).
Definition wraiths : summon :=
  mk_summon (Some "WRAITH"%string) 4 true [3] 0 (Some "UNIQUE"%string) 0
            (Some "a wraith"%string).
Definition parsed : list summon := [kin; hounds; uniques; wraiths].

(** A record whose fallback names no record of the catalogue. *)
Definition orphan : summon :=
  mk_summon (Some "SPIDER"%string) 5 false [] 0 (Some "ANIMAL"%string) 0
            (Some "spiders"%string).

(** A level: element 0 of the monster array is unused; two hounds out of
    sight of row 5, one dragon, one dead monster. *)
Definition level_monsters : list monster :=
  [ mk_monster None (mk_loc 0 0) 0 0;
    mk_monster (Some hound) (mk_loc 3 1) 50 0;
    mk_monster (Some hound) (mk_loc 4 2) 60 0;
    mk_monster (Some dragon) (mk_loc 8 3) 70 0;
    mk_monster None (mk_loc 9 9) 0 0 ].

Definition blank : state unit Z :=
  mk_state 0 0 0 [] None (mk_chunk level_monsters 0 tt) (mk_player 5 110) 0.

(** The registry built from [parsed], as [create_summons] leaves it. *)
Definition registry : list summon :=
  [ set_fallback kin (-1); set_fallback hounds 0; set_fallback uniques (-1);
    set_fallback wraiths 2; set_fallback zero_summon (-1) ].

Definition built : state unit Z := set_registry blank 5 registry.

(** The same level with the player hasted to speed 130. *)
Definition hasted : state unit Z :=
  mk_state 0 5 0 registry None (mk_chunk level_monsters 0 tt)
           (mk_player 5 130) 0.

(** The built registry with "HOUND" as the active summon type. *)
Definition hound_call : state unit Z := set_summon_specific_type built 1.

(** The monster that [hasted] gains when a hound is conjured next to
    [(5, 5)] with [delay] set. *)
Definition held_hound : monster := mk_monster (Some hound) (mk_loc 6 5) 0 (-1).

(** The built registry with "WRAITH" as the active summon type: no monster
    of the level and no race of the pool has base 3. *)
Definition wraith_call : state unit Z := set_summon_specific_type built 3.

(** A catalogue without "KIN", and the registry built from it. *)
Definition no_kin_parsed : list summon := [uniques; wraiths].
Definition no_kin : state unit Z :=
  set_registry blank 3
    [ set_fallback uniques (-1); set_fallback wraiths 0;
      set_fallback zero_summon (-1) ].

(** The state after a hound has been called to [(5, 5)]. *)
Definition called : state unit Z :=
  match call_monster (mk_loc 5 5) hound_call with
  | Ok (_, st) => st
  | Fault _ => hound_call
  end.

(** The state after a hound has been conjured next to [(5, 5)], with
    [delay] set, while the player is hasted. *)
Definition conjured : state unit Z :=
  match summon_specific (mk_loc 5 5) 3 1 true false hasted with
  | Ok (_, st) => st
  | Fault _ => hasted
  end.

(** A registry with "KIN" as its second record and as the active summon
    type, the kin base being that of the hounds. *)
Definition kin_call : state unit Z :=
  mk_state 1 3 7
    [ set_fallback uniques (-1); set_fallback kin (-1);
      set_fallback zero_summon (-1) ]
    None (mk_chunk level_monsters 0 tt) (mk_player 5 110) 0.

(** A record that the catalogue gives no description, and the registry
    built from it alone. *)
Definition undescribed : summon :=
  mk_summon (Some "ANY"%string) 0 true [] 0 None 0 None.
Definition undescribed_built : state unit Z :=
  set_registry blank 2
    [ set_fallback undescribed (-1); set_fallback zero_summon (-1) ].
End Demo.

#[export] Instance legal_cell_dec {Sq R : Type} {W : World Sq R}
  (c : chunk Sq) (near : loc) : Decision (legal_cell c near).
Proof. unfold legal_cell. apply _. Defined.

(** ** Arrays and the fault monad *)

Lemma bind_ok {A B : Type} (m : result A) (k : A -> result B) (b : B) :
  bind m k = Ok b -> exists a, m = Ok a /\ k a = Ok b.
Proof. destruct m as [a|f]; simpl; [eauto | discriminate]. Qed.

Lemma arr_get_nat {A : Type} (a : list A) (k : nat) :
  arr_get a (Z.of_nat k)
  = match a !! k with Some x => Ok x | None => Fault OutOfBounds end.
Proof.
  unfold arr_get. destruct (Z.ltb_spec (Z.of_nat k) 0) as [Hneg|_]; [lia|].
  by rewrite Nat2Z.id.
Qed.

Lemma arr_get_ok {A : Type} (a : list A) (i : Z) (x : A) :
  arr_get a i = Ok x <-> 0 <= i /\ a !! Z.to_nat i = Some x.
Proof.
  unfold arr_get. destruct (Z.ltb_spec i 0) as [Hneg|Hpos].
  - split; [discriminate | lia].
  - destruct (a !! Z.to_nat i) as [y|]; split.
    + intros [= ->]. auto.
    + intros [_ [= ->]]. reflexivity.
    + discriminate.
    + intros [_ [=]].
Qed.

Lemma arr_get_middle {A : Type} (pre suf : list A) (x : A) :
  arr_get (pre ++ x :: suf) (Z.of_nat (length pre)) = Ok x.
Proof. rewrite arr_get_nat. by rewrite list_lookup_middle. Qed.

Lemma arr_set_middle {A : Type} (pre suf : list A) (x y : A) :
  arr_set (pre ++ x :: suf) (Z.of_nat (length pre)) y = Ok (pre ++ y :: suf).
Proof.
  unfold arr_set. rewrite length_app. simpl.
  destruct (Z.leb_spec 0 (Z.of_nat (length pre))) as [_|Hneg]; [|lia].
  destruct (Z.ltb_spec (Z.of_nat (length pre))
              (Z.of_nat (length pre + S (length suf)))) as [_|Hge]; [|lia].
  simpl. rewrite Nat2Z.id. f_equal.
  rewrite insert_app_r_alt by lia. by rewrite Nat.sub_diag.
Qed.

Lemma arr_set_length {A : Type} (a a' : list A) (i : Z) (x : A) :
  arr_set a i x = Ok a' -> length a' = length a.
Proof.
  unfold arr_set. destruct (_ && _); [|discriminate].
  intros [= <-]. apply length_insert.
Qed.

(** ** The registry *)

Section RegistryFacts.
Context {Sq R : Type}.
Implicit Type st : state Sq R.

Lemma name_scan_null (a : list summon) (n : nat) (i : Z) :
  name_scan None a i n = Ok (-1).
Proof. revert i. induction n as [|n IH]; intros i; simpl; auto. Qed.

(** Inside the allocation the loop is the scan of the records ahead. *)
Lemma name_scan_lookup_from (s : string) (suf pre : list summon) :
  name_scan (Some s) (pre ++ suf) (Z.of_nat (length pre)) (length suf)
  = lookup_from s suf (Z.of_nat (length pre)).
Proof.
  revert pre. induction suf as [|rec suf IH]; intros pre; simpl; [done|].
  rewrite arr_get_middle. simpl.
  destruct (name rec) as [s'|]; simpl; [|done].
  destruct (String.eqb s s'); [done|].
  replace (pre ++ rec :: suf) with ((pre ++ [rec]) ++ suf)
    by (by rewrite <- app_assoc).
  replace (Z.of_nat (length pre) + 1) with (Z.of_nat (length (pre ++ [rec])))
    by (rewrite length_app; simpl; lia).
  apply IH.
Qed.

Lemma summon_name_to_idx_lookup_in (nm : option string) st :
  summon_max st = Z.of_nat (length (summons st)) ->
  summon_name_to_idx nm st = lookup_in nm (summons st).
Proof.
  intros Hmax. unfold summon_name_to_idx, lookup_in.
  destruct nm as [s|]; [|apply name_scan_null].
  rewrite Hmax, Nat2Z.id.
  apply (name_scan_lookup_from s (summons st) []).
Qed.

Lemma lookup_from_names (s : string) (l l' : list summon) (i : Z) :
  map name l = map name l' -> lookup_from s l i = lookup_from s l' i.
Proof.
  revert l' i. induction l as [|rec l IH]; intros [|rec' l'] i Hnames;
    simpl in *; try done.
  injection Hnames as Hname Hrest. rewrite Hname.
  destruct (name rec'); [|done].
  destruct (String.eqb _ _); [done|]. by apply IH.
Qed.

Lemma lookup_in_names (nm : option string) (a a' : list summon) :
  map name a = map name a' -> lookup_in nm a = lookup_in nm a'.
Proof. intros H. destruct nm; simpl; [by apply lookup_from_names | done]. Qed.

Lemma lookup_from_fault (s : string) (l : list summon) (i : Z) (f : fault) :
  lookup_from s l i = Fault f -> f = NullString.
Proof.
  revert i. induction l as [|rec l IH]; intros i; simpl; [discriminate|].
  destruct (name rec); [|by intros [= <-]].
  destruct (String.eqb _ _); [discriminate | apply IH].
Qed.

(** A name that no record ahead carries runs the scan into the first
    record without a name. *)
Lemma lookup_from_unmatched (s : string) (l tl : list summon) (blank : summon)
      (i : Z) :
  name blank = None ->
  (forall rec, rec ∈ l -> name rec <> Some s) ->
  lookup_from s (l ++ blank :: tl) i = Fault NullString.
Proof.
  intros Hblank. revert i. induction l as [|rec l IH]; intros i Hl; simpl.
  - by rewrite Hblank.
  - destruct (name rec) as [s'|] eqn:Hname; [|done].
    destruct (String.eqb_spec s s') as [->|_].
    + exfalso. apply (Hl rec); [left | done].
    + apply IH. intros rec' Hin. apply Hl. by right.
Qed.

Lemma resolve_list_names (a a' l : list summon) :
  map name a = map name a' -> resolve_list a l = resolve_list a' l.
Proof.
  intros H. induction l as [|rec l IH]; simpl; [done|].
  by rewrite (lookup_in_names _ a a' H), IH.
Qed.

Lemma resolve_list_app (a l1 l2 : list summon) :
  resolve_list a (l1 ++ l2)
  = (do x <- resolve_list a l1; do y <- resolve_list a l2; Ok (x ++ y)).
Proof.
  induction l1 as [|rec l1 IH]; simpl.
  - by destruct (resolve_list a l2).
  - destruct (lookup_in (fallback_name rec) a); simpl; [|done].
    rewrite IH. destruct (resolve_list a l1); simpl; [|done].
    by destruct (resolve_list a l2).
Qed.

Lemma resolve_list_same (a l l' : list summon) :
  resolve_list a l = Ok l' -> Forall2 same_record l l'.
Proof.
  revert l'. induction l as [|rec l IH]; intros l'; simpl.
  - intros [= <-]. constructor.
  - intros H. apply bind_ok in H as (idx & _ & H).
    apply bind_ok in H as (rest & Hrest & [= <-]).
    constructor; [by exists idx | by apply IH].
Qed.

Lemma resolve_list_fault (a l : list summon) (f : fault) :
  resolve_list a l = Fault f -> f = NullString.
Proof.
  induction l as [|rec l IH]; simpl; [discriminate|].
  destruct (fallback_name rec) as [s|]; simpl.
  - destruct (lookup_from s a 0) eqn:Hl; simpl.
    + destruct (resolve_list a l); simpl; [discriminate|].
      intros [= <-]. by apply IH.
    + intros [= <-]. by apply lookup_from_fault in Hl.
  - destruct (resolve_list a l); simpl; [discriminate|].
    intros [= <-]. by apply IH.
Qed.

(** One fallback name that the scan cannot settle stops the whole pass. *)
Lemma resolve_list_stuck (a l : list summon) (rec : summon) (s : string) :
  rec ∈ l -> fallback_name rec = Some s ->
  lookup_from s a 0 = Fault NullString ->
  resolve_list a l = Fault NullString.
Proof.
  intros Hin Hfb Hl.
  destruct (resolve_list a l) as [l'|f] eqn:Hres.
  - exfalso. revert l' Hres.
    induction Hin as [rec l|rec rec' l Hin IH]; intros l' Hres; simpl in Hres.
    + rewrite Hfb in Hres. simpl in Hres. by rewrite Hl in Hres.
    + apply bind_ok in Hres as (idx & _ & Hres).
      apply bind_ok in Hres as (rest & Hrest & _). by apply (IH Hfb rest).
  - by rewrite (resolve_list_fault _ _ _ Hres).
Qed.
End RegistryFacts.

Lemma copy_summons_spec (l pre : list summon) (m : nat) :
  copy_summons l (pre ++ replicate (length l + m) zero_summon)
               (Z.of_nat (length pre))
  = Ok (pre ++ l ++ replicate m zero_summon).
Proof.
  revert pre. induction l as [|s l IH]; intros pre; simpl; [done|].
  rewrite arr_set_middle. simpl.
  replace (pre ++ s :: replicate (length l + m) zero_summon)
    with ((pre ++ [s]) ++ replicate (length l + m) zero_summon)
    by (by rewrite <- app_assoc).
  replace (Z.of_nat (length pre) + 1) with (Z.of_nat (length (pre ++ [s])))
    by (rewrite length_app; simpl; lia).
  rewrite IH. by rewrite <- app_assoc.
Qed.

Lemma same_record_names (l l' : list summon) :
  Forall2 same_record l l' -> map name l = map name l'.
Proof.
  induction 1 as [|rec rec' l l' [idx ->] _ IH]; simpl; [done|]. by rewrite IH.
Qed.

Lemma same_record_lookup (l l' : list summon) (i : nat) (rec : summon) :
  Forall2 same_record l l' -> l !! i = Some rec ->
  exists rec', l' !! i = Some rec' /\ same_record rec rec'.
Proof.
  intros H. revert i. induction H as [|r r' l l' Hr _ IH]; intros [|i]; simpl;
    try done.
  - intros [= ->]. eauto.
  - apply IH.
Qed.

Section RegistryBuild.
Context {Sq R : Type}.
Implicit Type st : state Sq R.

Lemma resolve_fallbacks_spec (suf pre : list summon) st :
  summons st = pre ++ suf ->
  summon_max st = Z.of_nat (length (pre ++ suf)) ->
  resolve_fallbacks (Z.of_nat (length pre)) (length suf) st
  = (do suf' <- resolve_list (pre ++ suf) suf;
     Ok (set_summons st (pre ++ suf'))).
Proof.
  revert pre st. induction suf as [|rec suf IH]; intros pre st Harr Hmax.
  - simpl. f_equal. rewrite <- Harr. by destruct st.
  - cbn [resolve_fallbacks length resolve_list].
    rewrite Harr, arr_get_middle. cbn [bind].
    rewrite summon_name_to_idx_lookup_in by (by rewrite Harr).
    rewrite Harr.
    destruct (lookup_in (fallback_name rec) (pre ++ rec :: suf)) as [idx|f];
      cbn [bind]; [|done].
    rewrite arr_set_middle. cbn [bind].
    set (rec' := set_fallback rec idx).
    replace (Z.of_nat (length pre) + 1) with (Z.of_nat (length (pre ++ [rec'])))
      by (rewrite length_app; simpl; lia).
    rewrite IH.
    + rewrite (resolve_list_names ((pre ++ [rec']) ++ suf) (pre ++ rec :: suf))
        by (rewrite <- app_assoc, !map_app; done).
      destruct (resolve_list (pre ++ rec :: suf) suf) as [rest|f]; cbn [bind];
        [|done].
      f_equal. unfold set_summons, set_registry. cbn.
      by rewrite <- app_assoc.
    + cbn. by rewrite <- app_assoc.
    + cbn. rewrite Hmax. rewrite <- app_assoc. by rewrite !length_app.
Qed.

(** [create_summons] as one equation: the parsed records followed by one
    zeroed record, each with its fallback name resolved against that table,
    and a registry count of one more than the number of parsed records. *)
Lemma create_summons_spec (parsed : list summon) st :
  create_summons parsed st
  = (do a <- resolve_list (parsed ++ [zero_summon]) (parsed ++ [zero_summon]);
     Ok (set_registry st (Z.of_nat (length parsed) + 1) a)).
Proof.
  unfold create_summons.
  replace (Z.to_nat (Z.of_nat (length parsed) + 1)) with (length parsed + 1)%nat
    by lia.
  pose proof (copy_summons_spec parsed [] 1) as Hcopy.
  change (copy_summons parsed (replicate (length parsed + 1) zero_summon) 0
          = Ok (parsed ++ [zero_summon])) in Hcopy.
  rewrite Hcopy. cbn [bind].
  set (st1 := set_registry st _ _).
  replace (Z.to_nat (summon_max st1)) with (length (parsed ++ [zero_summon]))
    by (subst st1; cbn; rewrite length_app; simpl; lia).
  change 0 with (Z.of_nat (length (@nil summon))) at 1.
  rewrite (resolve_fallbacks_spec (parsed ++ [zero_summon]) [] st1).
  - done.
  - done.
  - subst st1. cbn. rewrite length_app. simpl. lia.
Qed.

Lemma create_summons_ok (parsed : list summon) st st' :
  create_summons parsed st = Ok st' ->
  exists recs,
    Forall2 same_record parsed recs
    /\ st' = set_registry st (Z.of_nat (length parsed) + 1)
                          (recs ++ [set_fallback zero_summon (-1)]).
Proof.
  rewrite create_summons_spec, resolve_list_app. intros H.
  apply bind_ok in H as (a & Ha & [= <-]).
  apply bind_ok in Ha as (recs & Hrecs & Ha).
  simpl in Ha. injection Ha as <-.
  exists recs. split; [by eapply resolve_list_same | done].
Qed.

(** The build goes through when every fallback name is that of a record
    (or absent) and every record has a name. *)
Lemma create_summons_succeeds (parsed : list summon) st :
  Forall (fun rec => exists idx,
            lookup_in (fallback_name rec) (parsed ++ [zero_summon]) = Ok idx)
         parsed ->
  exists st', create_summons parsed st = Ok st'.
Proof.
  intros Hall. rewrite create_summons_spec, resolve_list_app.
  assert (exists recs, resolve_list (parsed ++ [zero_summon]) parsed = Ok recs)
    as [recs ->].
  { set (a := parsed ++ [zero_summon]) in *. clearbody a.
    induction Hall as [|rec l [idx Hidx] _ [recs IH]]; simpl; [eauto|].
    rewrite Hidx, IH. simpl. eauto. }
  simpl. eauto.
Qed.
End RegistryBuild.

Section RegistryTable.
Context {Sq R : Type}.
Implicit Type st : state Sq R.

Lemma summon_desc_built (recs : list summon) (blank : summon) st (z : Z) :
  desc blank = None ->
  summon_desc z (set_registry st (Z.of_nat (length recs) + 1) (recs ++ [blank]))
  = Ok (match recs !! Z.to_nat z with
        | Some rec => if z <? 0 then None else desc rec
        | None => None
        end).
Proof.
  intros Hblank. unfold summon_desc. cbn [summon_max summons set_registry].
  destruct (Z.ltb_spec z 0) as [Hneg|Hpos]; cbn [orb].
  { by destruct (recs !! Z.to_nat z). }
  destruct (Z.geb_spec z (Z.of_nat (length recs) + 1)) as [Hout|Hin].
  { rewrite (lookup_ge_None_2 recs) by lia. done. }
  unfold arr_get. destruct (Z.ltb_spec z 0) as [|_]; [lia|].
  destruct (decide (Z.to_nat z < length recs)%nat) as [Hlt|Hge].
  - rewrite lookup_app_l by done.
    destruct (lookup_lt_is_Some_2 recs _ Hlt) as [rec Hrec].
    by rewrite Hrec.
  - rewrite (lookup_ge_None_2 recs) by lia.
    replace (Z.to_nat z) with (length recs + 0)%nat by lia.
    rewrite lookup_app_r by lia.
    replace (length recs + 0 - length recs)%nat with 0%nat by lia.
    simpl. by rewrite Hblank.
Qed.

(** C6, as amended.  After [create_summons] has built the registry from
    [N] parsed records, elements [0 .. N-1] of the table are those records,
    in order and without gaps (each with its fallback index filled in),
    followed by the one zeroed element, and [summon_max] is [N + 1];
    [summon_desc] never reads outside the table, whatever the integer it is
    given; it returns the stored description of record [i] for [0 <= i < N]
    and none for every index outside [[0, N)]; it returns none exactly for
    the indices outside [[0, N)] and those of the records that have no
    description, hence exactly outside [[0, N)] when every record has one. *)
Theorem create_summons_registry (parsed : list summon) st st' :
  create_summons parsed st = Ok st' ->
  (exists recs,
      Forall2 same_record parsed recs
      /\ summons st' = recs ++ [set_fallback zero_summon (-1)])
  /\ summon_max st' = Z.of_nat (length parsed) + 1
  /\ (forall z, summon_desc z st' = Ok None
                <-> z < 0 \/ Z.of_nat (length parsed) <= z
                    \/ exists rec, parsed !! Z.to_nat z = Some rec
                                   /\ desc rec = None)
  /\ (forall z, exists d, summon_desc z st' = Ok d)
  /\ (forall z, z < 0 \/ Z.of_nat (length parsed) <= z ->
                summon_desc z st' = Ok None)
  /\ (forall (i : nat) rec, parsed !! i = Some rec ->
                            summon_desc (Z.of_nat i) st' = Ok (desc rec))
  /\ (Forall (fun rec => desc rec <> None) parsed ->
      forall z, summon_desc z st' = Ok None
                <-> z < 0 \/ Z.of_nat (length parsed) <= z).
Proof.
  intros Hbuild.
  destruct (create_summons_ok _ _ _ Hbuild) as (recs & Hrecs & ->).
  pose proof (Forall2_length _ _ _ Hrecs) as Hlen. rewrite Hlen.
  assert (Hdesc : forall z,
             summon_desc z (set_registry st (Z.of_nat (length recs) + 1)
                              (recs ++ [set_fallback zero_summon (-1)]))
             = Ok (match recs !! Z.to_nat z with
                   | Some rec => if z <? 0 then None else desc rec
                   | None => None
                   end)).
  { intros z. by apply summon_desc_built. }
  split; [by exists recs|].
  split; [cbn; lia|].
  split.
  { intros z. rewrite Hdesc.
    destruct (Z.ltb_spec z 0) as [Hneg|Hpos].
    { split; [auto|]. intros _. by destruct (recs !! Z.to_nat z). }
    destruct (recs !! Z.to_nat z) as [rec'|] eqn:Hrec.
    - apply lookup_lt_Some in Hrec as Hlt.
      destruct (lookup_lt_is_Some_2 parsed (Z.to_nat z)) as [rec Hp]; [lia|].
      destruct (same_record_lookup _ _ _ _ Hrecs Hp) as (rec2 & Hr2 & idx & ->).
      rewrite Hrec in Hr2. injection Hr2 as ->. cbn [desc set_fallback].
      split.
      + intros [= Hnone]. right; right. by exists rec.
      + intros [|[|(rec3 & Hp3 & Hnone)]]; [lia|lia|].
        rewrite Hp in Hp3. injection Hp3 as ->. by rewrite Hnone.
    - apply lookup_ge_None in Hrec. split; [|done]. intros _. right; left. lia. }
  split; [intros z; rewrite Hdesc; eauto|].
  split; [|split].
  - intros z Hz. rewrite Hdesc.
    destruct (recs !! Z.to_nat z) as [rec|] eqn:Hrec; [|done].
    destruct (Z.ltb_spec z 0); [done|].
    apply lookup_lt_Some in Hrec. lia.
  - intros i rec Hi. rewrite Hdesc, Nat2Z.id.
    destruct (same_record_lookup _ _ _ _ Hrecs Hi) as (rec' & -> & idx & ->).
    by destruct (Z.ltb_spec (Z.of_nat i) 0); [lia|].
  - intros Hall z. rewrite Hdesc. split.
    + destruct (recs !! Z.to_nat z) as [rec'|] eqn:Hrec.
      * destruct (Z.ltb_spec z 0) as [|Hpos]; [auto|].
        intros [= Hnone]. exfalso.
        apply lookup_lt_Some in Hrec as Hlt.
        destruct (lookup_lt_is_Some_2 parsed (Z.to_nat z)) as [rec Hp]; [lia|].
        destruct (same_record_lookup _ _ _ _ Hrecs Hp) as (rec2 & Hr2 & idx & ->).
        rewrite Hrec in Hr2. injection Hr2 as ->.
        rewrite Forall_forall in Hall.
        apply (Hall rec); [|done].
        apply list_elem_of_lookup. eauto.
      * intros _. apply lookup_ge_None in Hrec.
        destruct (Z.ltb_spec z 0); [auto | right; lia].
    + intros Hz. destruct (recs !! Z.to_nat z) as [rec'|] eqn:Hrec; [|done].
      destruct (Z.ltb_spec z 0); [done|].
      apply lookup_lt_Some in Hrec. lia.
Qed.

(** C9.  After [create_summons] the scan of [summon_name_to_idx] runs over
    the zeroed element appended past the parsed records, whose name is null:
    looking up any name that no parsed record carries ends in [strcmp] on
    that null name; and the fallback pass of [create_summons] itself ends
    there as soon as one record's fallback name is the name of no record. *)
Theorem lookup_reaches_zeroed_record :
  (forall (parsed : list summon) st st' (s : string),
      create_summons parsed st = Ok st' ->
      Forall (fun rec => name rec <> Some s) parsed ->
      summon_name_to_idx (Some s) st' = Fault NullString)
  /\ (forall (parsed : list summon) st (rec : summon) (s : string),
         rec ∈ parsed -> fallback_name rec = Some s ->
         Forall (fun rec' => name rec' <> Some s) parsed ->
         create_summons parsed st = Fault NullString).
Proof.
  split.
  - intros parsed st st' s Hbuild Hnone.
    destruct (create_summons_ok _ _ _ Hbuild) as (recs & Hrecs & ->).
    rewrite summon_name_to_idx_lookup_in.
    + cbn [lookup_in summons set_registry].
      rewrite (lookup_from_names s _ (parsed ++ [zero_summon])).
      * apply lookup_from_unmatched; [done|].
        intros rec Hin. rewrite Forall_forall in Hnone.
        by apply Hnone.
      * rewrite !map_app. by rewrite (same_record_names _ _ Hrecs).
    + cbn. rewrite length_app, <- (Forall2_length _ _ _ Hrecs). simpl. lia.
  - intros parsed st rec s Hin Hfb Hnone.
    rewrite create_summons_spec.
    rewrite (resolve_list_stuck _ _ rec s); [done| |done|].
    + apply elem_of_app. by left.
    + apply lookup_from_unmatched; [done|].
      intros rec' Hin'. rewrite Forall_forall in Hnone.
      by apply Hnone.
Qed.
End RegistryTable.

(** ** The eligibility predicate *)

Lemma bases_loop_false (b : monster_base_ptr) (l : list monster_base_ptr) :
  bases_loop b l = false <-> l <> [] /\ b ∉ l.
Proof.
  induction l as [|x next IH]; simpl.
  - split; [discriminate | by intros [? _]].
  - destruct (Z.eqb_spec b x) as [->|Hne].
    + split; [discriminate|]. intros [_ Hnot]. exfalso. apply Hnot. left.
    + destruct next as [|y next'].
      * split; [|done]. intros _. split; [done|].
        intros Hin. apply list_elem_of_singleton in Hin. done.
      * rewrite IH. split.
        -- intros [_ Hnot]. split; [done|].
           intros Hin. apply elem_of_cons in Hin as [?|?]; done.
        -- intros [_ Hnot]. split; [done|].
           intros Hin. apply Hnot. by right.
Qed.

Lemma bases_loop_true (b : monster_base_ptr) (l : list monster_base_ptr) :
  bases_loop b l = true <-> (l <> [] -> b ∈ l).
Proof.
  destruct (bases_loop b l) eqn:Hloop.
  - split; [|done]. intros _ Hne.
    destruct (decide (b ∈ l)) as [|Hnot]; [done|].
    assert (bases_loop b l = false) by (by apply bases_loop_false).
    congruence.
  - apply bases_loop_false in Hloop as [Hne Hnot].
    split; [discriminate|]. intros H. by apply H in Hne.
Qed.

Section Eligibility.
Context {Sq R : Type} {W : World Sq R}.
Implicit Type st : state Sq R.

(** The predicate, once the active record is known. *)
Lemma summon_specific_okay_eq (rc : monster_race) st (s : summon) :
  arr_get (summons st) (summon_specific_type st) = Ok s ->
  summon_specific_okay rc st
  = if negb (unique_allowed s) && rf_has (flags rc) RF_UNIQUE then Ok false
    else if negb (bases_loop (base rc) (bases s)) then Ok false
    else if negb (race_flag s =? 0) && negb (rf_has (flags rc) (race_flag s))
    then Ok false
    else
      do kin <- summon_name_to_idx (Some "KIN"%string) st;
      if summon_specific_type st =? kin
      then Ok (negb (rf_has (flags rc) RF_UNIQUE) && (base rc =? kin_base st))
      else Ok true.
Proof. intros Hrec. unfold summon_specific_okay. by rewrite Hrec. Qed.

Lemma passes_unique_bool (s : summon) (rc : monster_race) :
  negb (unique_allowed s) && rf_has (flags rc) RF_UNIQUE = false
  <-> passes_unique s rc.
Proof.
  unfold passes_unique.
  destruct (unique_allowed s), (rf_has (flags rc) RF_UNIQUE); simpl;
    split; try done; intros H; by specialize (H eq_refl).
Qed.

Lemma passes_bases_bool (s : summon) (rc : monster_race) :
  negb (bases_loop (base rc) (bases s)) = false <-> passes_bases s rc.
Proof.
  unfold passes_bases. rewrite <- bases_loop_true.
  by destruct (bases_loop (base rc) (bases s)).
Qed.

Lemma passes_race_flag_bool (s : summon) (rc : monster_race) :
  negb (race_flag s =? 0) && negb (rf_has (flags rc) (race_flag s)) = false
  <-> passes_race_flag s rc.
Proof.
  unfold passes_race_flag.
  destruct (Z.eqb_spec (race_flag s) 0) as [Hz|Hnz]; simpl; [done|].
  destruct (rf_has (flags rc) (race_flag s)); simpl; split; try done.
  intros H. by specialize (H Hnz).
Qed.

(** The predicate under the type that the registry lookup of "KIN" finds. *)
Lemma kin_okay_at_lookup (rc : monster_race) st (s : summon) :
  arr_get (summons st) (summon_specific_type st) = Ok s ->
  summon_name_to_idx (Some "KIN"%string) st = Ok (summon_specific_type st) ->
  exists b,
    summon_specific_okay rc st = Ok b
    /\ (b = true <->
        rf_has (flags rc) RF_UNIQUE = false
        /\ base rc = kin_base st
        /\ passes_unique s rc /\ passes_bases s rc /\ passes_race_flag s rc).
Proof.
  intros Hrec Hkin. rewrite (summon_specific_okay_eq rc st s Hrec).
  pose proof (passes_unique_bool s rc) as Hu.
  pose proof (passes_bases_bool s rc) as Hb.
  pose proof (passes_race_flag_bool s rc) as Hf.
  destruct (negb (unique_allowed s) && rf_has (flags rc) RF_UNIQUE).
  { exists false. split; [done|]. split; [done|].
    intros (_ & _ & H & _). apply Hu in H. done. }
  destruct (negb (bases_loop (base rc) (bases s))).
  { exists false. split; [done|]. split; [done|].
    intros (_ & _ & _ & H & _). apply Hb in H. done. }
  destruct (negb (race_flag s =? 0) && negb (rf_has (flags rc) (race_flag s))).
  { exists false. split; [done|]. split; [done|].
    intros (_ & _ & _ & _ & H). apply Hf in H. done. }
  rewrite Hkin. cbn [bind]. rewrite Z.eqb_refl.
  eexists. split; [done|].
  rewrite andb_true_iff, negb_true_iff, Z.eqb_eq.
  split.
  - intros [Hun Hbase]. repeat split; try done;
      [by apply Hu | by apply Hb | by apply Hf].
  - intros (Hun & Hbase & _). done.
Qed.

(** C7, as amended.  For a summon type whose base list is not empty, the
    base check rejects exactly the races whose base is nowhere in the list,
    in whatever order the list is; so the predicate rejects every race whose
    base is not listed, admits only races whose base is listed, and, for a
    race that passes the unique and the race-flag checks under a type other
    than the one named "KIN", rejects if and only if the base is not listed.
    With an empty list the base check rejects nobody. *)
Theorem bases_check_membership (rc : monster_race) st (s : summon) :
  arr_get (summons st) (summon_specific_type st) = Ok s ->
  (bases_loop (base rc) (bases s) = false
   <-> bases s <> [] /\ base rc ∉ bases s)
  /\ (forall l, l ≡ₚ bases s ->
                bases_loop (base rc) l = bases_loop (base rc) (bases s))
  /\ (bases s <> [] -> base rc ∉ bases s ->
      summon_specific_okay rc st = Ok false)
  /\ (bases s <> [] -> summon_specific_okay rc st = Ok true ->
      base rc ∈ bases s)
  /\ (forall kin,
         bases s <> [] -> passes_unique s rc -> passes_race_flag s rc ->
         summon_name_to_idx (Some "KIN"%string) st = Ok kin ->
         kin <> summon_specific_type st ->
         (summon_specific_okay rc st = Ok false <-> base rc ∉ bases s)).
Proof.
  intros Hrec. rewrite (summon_specific_okay_eq rc st s Hrec).
  pose proof (bases_loop_false (base rc) (bases s)) as Hloop.
  split; [done|]. split; [|split; [|split]].
  - intros l Hperm.
    destruct (bases_loop (base rc) (bases s)) eqn:Hb.
    + apply bases_loop_true. intros Hne. rewrite Hperm.
      apply bases_loop_true in Hb; [done|].
      intros Hnil. rewrite Hnil in Hperm. apply Permutation_nil_r in Hperm. done.
    + apply bases_loop_false. apply bases_loop_false in Hb as [Hne Hnot].
      split; [|by rewrite Hperm].
      intros ->. apply Permutation_nil_l in Hperm. done.
  - intros Hne Hnot.
    assert (bases_loop (base rc) (bases s) = false) as -> by (by apply Hloop).
    by destruct (negb (unique_allowed s) && rf_has (flags rc) RF_UNIQUE).
  - intros Hne.
    destruct (negb (unique_allowed s) && rf_has (flags rc) RF_UNIQUE);
      [discriminate|].
    destruct (bases_loop (base rc) (bases s)) eqn:Hb; [|discriminate].
    intros _. by apply bases_loop_true in Hb.
  - intros kin Hne Hu Hf Hkin Hother.
    apply passes_unique_bool in Hu. apply passes_race_flag_bool in Hf.
    rewrite Hu, Hf, Hkin. cbn [bind].
    destruct (Z.eqb_spec (summon_specific_type st) kin) as [Heq|_]; [done|].
    destruct (bases_loop (base rc) (bases s)) eqn:Hb; cbn [negb].
    + split; [discriminate|]. intros Hnot.
      apply bases_loop_true in Hb; done.
    + split; [|done]. intros _. by apply bases_loop_false in Hb as [_ ?].
Qed.
End Eligibility.

(** ** Calling a monster of the level *)

Section Calling.
Context {Sq R : Type} {W : World Sq R}.
Implicit Type st : state Sq R.

Lemma goods_ge (g : loc) st (n : nat) (i x : Z) :
  x ∈ goods g st i n -> i <= x.
Proof.
  revert i. induction n as [|n IH]; intros i; simpl.
  - intros H. by apply elem_of_nil in H.
  - destruct (is_good g st i).
    + intros H. apply elem_of_cons in H as [->|H]; [lia|].
      apply IH in H. lia.
    + intros H. apply IH in H. lia.
Qed.

Lemma goods_NoDup (g : loc) st (n : nat) (i : Z) : NoDup (goods g st i n).
Proof.
  revert i. induction n as [|n IH]; intros i; simpl; [constructor|].
  destruct (is_good g st i); [|apply IH].
  constructor; [|apply IH].
  intros H. apply goods_ge in H. lia.
Qed.

(** A monster is in the candidate list exactly when [can_call_monster]
    accepts it. *)
Lemma goods_elem (g : loc) st (n : nat) (i x : Z) :
  x ∈ goods g st i n <-> (i <= x < i + Z.of_nat n /\ is_good g st x = true).
Proof.
  revert i. induction n as [|n IH]; intros i; simpl goods.
  - split; [intros H; by apply elem_of_nil in H | lia].
  - destruct (is_good g st i) eqn:Hi.
    + rewrite elem_of_cons, IH. split.
      * intros [->|[Hr Hg]]; [split; [lia|done] | split; [lia|done]].
      * intros [Hr Hg]. destruct (decide (x = i)); [by left | right].
        split; [lia|done].
    + rewrite IH. split.
      * intros [Hr Hg]. split; [lia|done].
      * intros [Hr Hg]. split; [|done].
        destruct (decide (x = i)) as [->|]; [congruence | lia].
Qed.

Lemma count_good_step (g : loc) st (i : Z) (n : nat) (k c : Z) :
  count_good g st i (S n) k = Ok c ->
  count_good g st (i + 1) n (if is_good g st i then k + 1 else k) = Ok c.
Proof.
  simpl. intros H. unfold is_good.
  apply bind_ok in H as (mon & -> & H).
  apply bind_ok in H as (good & Hgood & H). cbn [bind]. rewrite Hgood.
  by destruct good.
Qed.

(** The first pass counts the candidates. *)
Lemma count_good_spec (g : loc) st (n : nat) (i k c : Z) :
  count_good g st i n k = Ok c ->
  c = k + Z.of_nat (length (goods g st i n)).
Proof.
  revert i k. induction n as [|n IH]; intros i k H.
  - simpl in *. injection H as <-. lia.
  - apply count_good_step in H. apply IH in H. simpl goods.
    destruct (is_good g st i); simpl length; lia.
Qed.

(** The second pass writes them, in index order, over the zeroed array. *)
Lemma store_good_spec (g : loc) st (n : nat) (i k c : Z) (pre : list Z) (m : nat) :
  count_good g st i n k = Ok c ->
  (length (goods g st i n) <= m)%nat ->
  store_good g st i n (Z.of_nat (length pre)) (pre ++ replicate m 0)
  = Ok (Z.of_nat (length pre) + Z.of_nat (length (goods g st i n)),
        pre ++ goods g st i n
            ++ replicate (m - length (goods g st i n)) 0).
Proof.
  revert i k pre m. induction n as [|n IH]; intros i k pre m Hcount Hlen.
  - simpl. rewrite Nat.sub_0_r. do 2 f_equal. lia.
  - pose proof (count_good_step _ _ _ _ _ _ Hcount) as Hnext.
    simpl in Hcount. apply bind_ok in Hcount as (mon & Hmon & Hcount).
    apply bind_ok in Hcount as (good & Hgood & _).
    assert (is_good g st i = good) as Hi.
    { unfold is_good. rewrite Hmon. cbn [bind]. rewrite Hgood. by destruct good. }
    simpl store_good. simpl goods in *. rewrite Hmon. cbn [bind].
    rewrite Hgood. cbn [bind]. rewrite Hi in *. destruct good.
    + simpl length in *. destruct m as [|m]; [lia|].
      cbn [replicate]. rewrite arr_set_middle. cbn [bind].
      replace (pre ++ i :: replicate m 0) with ((pre ++ [i]) ++ replicate m 0)
        by (by rewrite <- app_assoc).
      replace (Z.of_nat (length pre) + 1) with (Z.of_nat (length (pre ++ [i])))
        by (rewrite length_app; simpl; lia).
      rewrite (IH _ _ _ _ Hnext) by lia.
      rewrite length_app. simpl length. rewrite <- app_assoc. simpl.
      do 2 f_equal. lia.
    + by rewrite (IH _ _ _ _ Hnext).
Qed.

(** What [call_monster_pick] returns: nothing when there is no candidate,
    else the candidate at the position drawn by [randint0(mon_count - 1)]. *)
Lemma call_monster_pick_spec (g : loc) st (p : option (Z * R)) :
  call_monster_pick g st = Ok p ->
  match p with
  | None => good_monsters g st = []
  | Some (i, r) =>
      exists choice,
        randint0 (Z.of_nat (length (good_monsters g st)) - 1) (rand st)
        = (choice, r)
        /\ arr_get (good_monsters g st) choice = Ok i
  end.
Proof.
  unfold call_monster_pick, good_monsters.
  set (n := Z.to_nat (cave_monster_max (cave st) - 1)).
  intros H. apply bind_ok in H as (c & Hcount & H).
  pose proof (count_good_spec _ _ _ _ _ _ Hcount) as Hc.
  destruct (Z.eqb_spec c 0) as [Hz|Hnz].
  - injection H as <-. destruct (goods g st 1 n); [done | simpl in Hc; lia].
  - pose proof (store_good_spec g st n 1 0 c [] (Z.to_nat c) Hcount) as Hstore.
    cbn [app length] in Hstore. change (Z.of_nat 0) with 0 in Hstore.
    rewrite Hstore in H by lia. cbn [bind] in H.
    replace (Z.to_nat c - length (goods g st 1 n))%nat with 0%nat in H by lia.
    cbn [replicate] in H. rewrite app_nil_r in H.
    change (0 + Z.of_nat (length (goods g st 1 n)))
      with (Z.of_nat (length (goods g st 1 n))) in H.
    destruct (randint0 _ (rand st)) as [choice r] eqn:Hdraw.
    apply bind_ok in H as (i & Hi & [= <-]).
    exists choice. split; [done|]. exact Hi.
Qed.

(** C1.  With [randint0(M)] drawing from [0 <= X < M], the draw
    [randint0(mon_count - 1)] of [call_monster] never reaches the last
    position of the candidate array: as soon as there are two candidates, the
    one with the highest monster index cannot be the selected one, whatever
    the state of the generator, so the selection is not uniform over the
    candidates found. *)
Theorem call_monster_never_picks_last (g : loc) st (i : Z) (r : R) :
  randint0_in_range W ->
  (2 <= length (good_monsters g st))%nat ->
  call_monster_pick g st = Ok (Some (i, r)) ->
  i ∈ good_monsters g st /\ last (good_monsters g st) <> Some i.
Proof.
  intros Hrange Htwo Hpick.
  apply call_monster_pick_spec in Hpick as (choice & Hdraw & Hi).
  specialize (Hrange (Z.of_nat (length (good_monsters g st)) - 1) (rand st)).
  rewrite Hdraw in Hrange. cbn [fst] in Hrange.
  apply arr_get_ok in Hi as [_ Hi].
  split; [apply list_elem_of_lookup; eauto|].
  rewrite last_lookup. intros Hlast.
  pose proof (NoDup_lookup _ _ _ _ (goods_NoDup g st _ 1) Hi Hlast) as Heq.
  lia.
Qed.
End Calling.

(** ** Conjure-and-place and shapechange selection *)

(** Takes apart a hypothesis that a monadic computation returned. *)
Ltac returned H :=
  repeat match type of H with
    | bind _ _ = Ok _ =>
        let x := fresh "x" in
        let Hx := fresh "Hx" in
        apply bind_ok in H as (x & Hx & H)
    | (let '(_, _) := ?p in _) = Ok _ => destruct p eqn:?
    | (if ?b then _ else _) = Ok _ => destruct b eqn:?
    | match ?o with Some _ => _ | None => _ end = Ok _ => destruct o eqn:?
    end.

Section Summon.
Context {Sq R : Type} {W : World Sq R}.
Implicit Type st : state Sq R.

Lemma square_legal_iff (c : chunk Sq) (near : loc) :
  square_legal c near = true <-> legal_cell c near.
Proof.
  unfold square_legal, legal_cell.
  destruct (square_isempty c near), (square_iswarded c near),
    (square_isdecoyed c near); simpl; split; try done; intros (? & ? & ?); done.
Qed.

Lemma scatter_distance_floor (i : Z) :
  0 <= i -> scatter_distance i = i / 15 + 1.
Proof. intros Hi. unfold scatter_distance. by rewrite Z.quot_div_nonneg by lia. Qed.

(** When no scattered cell is legal the search runs out of attempts, having
    consumed exactly the scatters of [scattered_cells]. *)
Lemma location_search_exhausted (c : chunk Sq) (g : loc) (n : nat) (i : Z)
      (near : loc) (r : R) :
  0 <= i ->
  Forall (fun cell => ~ legal_cell c cell) (fst (scattered_cells c g i n r)) ->
  exists near',
    location_search c g i n near r
    = (i + Z.of_nat n, near', snd (scattered_cells c g i n r)).
Proof.
  revert i near r. induction n as [|n IH]; intros i near r Hi Hall.
  - simpl. exists near. do 2 f_equal. lia.
  - simpl in *. rewrite scatter_distance_floor by done.
    destruct (scatter c g (i / 15 + 1) true r) as [cell r1].
    destruct (scattered_cells c g (i + 1) n r1) as [l r2] eqn:Hrest.
    simpl in Hall. apply Forall_cons in Hall as [Hcell Hall].
    destruct (square_legal c cell) eqn:Hlegal.
    { exfalso. by apply Hcell, square_legal_iff. }
    destruct (IH (i + 1) cell r1) as [near' ->]; [lia | by rewrite Hrest |].
    rewrite Hrest. simpl. exists near'. do 2 f_equal. lia.
Qed.

(** When the search stops early, it stops at the first legal cell of
    [scattered_cells], and the attempt index is its position. *)
Lemma location_search_found (c : chunk Sq) (g : loc) (n : nat) (i j : Z)
      (near0 near : loc) (r r' : R) :
  0 <= i ->
  location_search c g i n near0 r = (j, near, r') ->
  j <> i + Z.of_nat n ->
  i <= j < i + Z.of_nat n
  /\ legal_cell c near
  /\ fst (scattered_cells c g i n r) !! Z.to_nat (j - i) = Some near.
Proof.
  revert i near0 r. induction n as [|n IH]; intros i near0 r Hi Hsearch Hj.
  - simpl in Hsearch. injection Hsearch as <- <- <-. lia.
  - simpl in *. rewrite scatter_distance_floor in Hsearch by done.
    destruct (scatter c g (i / 15 + 1) true r) as [cell r1].
    destruct (scattered_cells c g (i + 1) n r1) as [l r2] eqn:Hrest.
    destruct (square_legal c cell) eqn:Hlegal.
    + injection Hsearch as <- <- <-.
      split; [lia|]. split; [by apply square_legal_iff|].
      by rewrite Z.sub_diag.
    + destruct (IH (i + 1) cell r1) as (Hr & Hl & Hnth); [lia|done|lia|].
      split; [lia|]. split; [done|].
      rewrite Hrest in Hnth. simpl in *.
      replace (Z.to_nat (j - i)) with (S (Z.to_nat (j - (i + 1)))) by lia.
      done.
Qed.

(** [call_monster] leaves the summon context, the registry and the weighted
    pool as they are. *)
Lemma call_monster_frame (g : loc) st (lvl : Z) st' :
  call_monster g st = Ok (lvl, st') ->
  summon_specific_type st' = summon_specific_type st
  /\ mon_num_hook st' = mon_num_hook st
  /\ summons st' = summons st /\ summon_max st' = summon_max st.
Proof.
  unfold call_monster. intros H.
  apply bind_ok in H as ([[i r]|] & _ & H).
  - returned H. by injection H as <- <-.
  - by injection H as <- <-.
Qed.

(** C5.  On attempt [i] of the location search, [0 <= i <= 59], the radius
    asked of [scatter] is [floor(i / 15) + 1]: 1 for the first fifteen
    attempts, then 2, then 3, then 4.  If none of the 60 cells scattered with
    these radii is empty, unwarded and undecoyed, [summon_specific] returns 0
    and leaves the state as it found it, the generator apart, which has
    advanced by the 60 scatters: the summon context, the registry, the
    weighted pool, the level and the player are untouched. *)
Theorem summon_specific_no_location :
  (forall i, 0 <= i <= 59 ->
             scatter_distance i = i / 15 + 1 /\ 1 <= scatter_distance i <= 4)
  /\ map scatter_distance (seqZ 0 60)
     = replicate 15 1 ++ replicate 15 2 ++ replicate 15 3 ++ replicate 15 4
  /\ (forall (g : loc) (lev type : Z) (delay call : bool) st,
         Forall (fun cell => ~ legal_cell (cave st) cell)
                (fst (scattered_cells (cave st) g 0 60 (rand st))) ->
         exists r,
           r = snd (scattered_cells (cave st) g 0 60 (rand st))
           /\ summon_specific g lev type delay call st
              = Ok (0, mk_state (summon_specific_type st) (summon_max st)
                                (kin_base st) (summons st) (mon_num_hook st)
                                (cave st) (player st) r)).
Proof.
  split; [|split].
  - intros i Hi. rewrite scatter_distance_floor by lia. split; [done|].
    assert (0 <= i / 15 <= 3); [|lia].
    split; [apply Z.div_pos; lia|].
    apply Z.lt_succ_r. apply Z.div_lt_upper_bound; lia.
  - reflexivity.
  - intros g lev type delay call st Hall.
    destruct (location_search_exhausted (cave st) g 60 0 (mk_loc 0 0) (rand st))
      as [near' Hsearch]; [lia|done|].
    eexists. split; [reflexivity|].
    unfold summon_specific. rewrite Hsearch. done.
Qed.

Lemma use_calling_scheme_called (type u w : Z) st st1 :
  summon_name_to_idx (Some "UNIQUE"%string) st = Ok u ->
  summon_name_to_idx (Some "WRAITH"%string) st = Ok w ->
  type <> u -> type <> w ->
  summons st1 = summons st -> summon_max st1 = summon_max st ->
  use_calling_scheme type true st1 = Ok true.
Proof.
  unfold use_calling_scheme, summon_name_to_idx.
  intros Hu Hw Hnu Hnw -> ->. rewrite Hu. cbn [bind].
  destruct (Z.eqb_spec type u) as [|_]; [done|]. cbn [negb].
  rewrite Hw. cbn [bind].
  by destruct (Z.eqb_spec type w) as [|_].
Qed.

(** The calling path of [summon_specific]. *)
Lemma summon_specific_call_path (g : loc) (lev type : Z) (delay : bool) st
      (i : Z) (near : loc) (r : R) (u w : Z) :
  location_search (cave st) g 0 60 (mk_loc 0 0) (rand st) = (i, near, r) ->
  i <> 60 ->
  summon_name_to_idx (Some "UNIQUE"%string) st = Ok u ->
  summon_name_to_idx (Some "WRAITH"%string) st = Ok w ->
  type <> u -> type <> w ->
  summon_specific g lev type delay true st
  = call_monster near (set_summon_specific_type (set_rand st r) type).
Proof.
  intros Hsearch Hi Hu Hw Hnu Hnw. unfold summon_specific. rewrite Hsearch.
  destruct (Z.eqb_spec i 60) as [|_]; [done|].
  by rewrite (use_calling_scheme_called type u w st) by done.
Qed.

(** Every path of [summon_specific] that returns: either the invocation
    reached the weighted draw, and the pool restriction it installed is
    cleared, or it did not, and the pool is as it was on entry. *)
Lemma summon_specific_pool (g : loc) (lev type : Z) (delay call : bool) st
      (lvl : Z) st' :
  summon_specific g lev type delay call st = Ok (lvl, st') ->
  (reaches_draw g type call st /\ mon_num_hook st' = None)
  \/ (~ reaches_draw g type call st /\ mon_num_hook st' = mon_num_hook st).
Proof.
  unfold summon_specific, reaches_draw. intros H.
  destruct (location_search (cave st) g 0 60 (mk_loc 0 0) (rand st))
    as [[i near] r] eqn:Hsearch.
  destruct (Z.eqb_spec i 60) as [Hi|Hi].
  { right. injection H as <- <-. split; [|done].
    intros (i' & near' & r' & [= <- <- <-] & Hne & _). done. }
  apply bind_ok in H as (calling & Hcalling & H).
  destruct calling.
  { right. apply call_monster_frame in H as (_ & -> & _). split; [|done].
    intros (i' & near' & r' & [= <- <- <-] & _ & Hno). congruence. }
  left. split; [by exists i, near, r|].
  returned H; by injection H as <- <-.
Qed.

(** C2.  [select_shape] always returns with the pool restriction cleared.
    [summon_specific], on every path that returns (success or failure),
    has cleared the restriction it installed whenever it reached the weighted
    draw, and otherwise has not touched the pool; so a pool that was
    unrestricted on entry is unrestricted on return. *)
Theorem pool_restriction_cleared :
  (forall (mon : monster) (type : Z) st,
      mon_num_hook (snd (select_shape mon type st)) = None)
  /\ (forall (g : loc) (lev type : Z) (delay call : bool) st (lvl : Z) st',
         summon_specific g lev type delay call st = Ok (lvl, st') ->
         (reaches_draw g type call st -> mon_num_hook st' = None)
         /\ (~ reaches_draw g type call st ->
             mon_num_hook st' = mon_num_hook st)
         /\ (mon_num_hook st = None -> mon_num_hook st' = None)).
Proof.
  split.
  - intros mon type st. unfold select_shape.
    by destruct (get_mon_num _ _ _).
  - intros g lev type delay call st lvl st' H.
    apply summon_specific_pool in H as [[Hdraw Hnone]|[Hnot Hsame]].
    + done.
    + split; [done|]. split; [done|]. congruence.
Qed.

(** C10.  [select_shape] never reads its monster argument: for two monsters
    and the same type, state and generator, the drawn race and the final
    state are the same.  Both are fixed by the type, the state and the
    generator alone: the race is the one drawn at depth plus five from the
    pool restricted by the predicate under the new summon context, and the
    final state is the initial one with that context, the pool reset and the
    generator as the draw left it. *)
Theorem select_shape_ignores_monster (m1 m2 : monster) (type : Z) st :
  select_shape m1 type st = select_shape m2 type st
  /\ (let st1 := set_summon_specific_type st type in
      let drawn :=
        get_mon_num (Some (fun rc => summon_specific_okay rc st1))
                    (depth (player st) + 5) (rand st) in
      select_shape m1 type st
      = (fst drawn,
         mk_state type (summon_max st) (kin_base st) (summons st) None
                  (cave st) (player st) (snd drawn))).
Proof.
  split; [reflexivity|].
  unfold select_shape. cbn.
  by destruct (get_mon_num _ _ _) as [rc r].
Qed.
End Summon.

Lemma location_search_world {Sq R : Type} (W : World Sq R) draw place
      (c : chunk Sq) (g : loc) (i : Z) (n : nat) (near : loc) (r : R) :
  location_search (W := with_draw_and_placement W draw place) c g i n near r
  = location_search c g i n near r.
Proof. reflexivity. Qed.

Lemma call_monster_world {Sq R : Type} (W : World Sq R) draw place
      (g : loc) (st : state Sq R) :
  call_monster (W := with_draw_and_placement W draw place) g st
  = call_monster g st.
Proof. reflexivity. Qed.

(** C8.  When [summon_specific] finds a legal cell and is invoked with
    [call] true and a type that is neither the index found for "UNIQUE" nor
    the one found for "WRAITH", it sets the summon context to that type and
    returns what [call_monster] returns at the found cell; the weighted pool
    is left as it was, and neither the weighted draw nor the placement
    service has any part in the result. *)
Theorem summon_specific_delegates_to_call {Sq R : Type} (W : World Sq R)
        (g : loc) (lev type : Z) (delay : bool) (st : state Sq R)
        (i : Z) (near : loc) (r : R) (u w : Z) :
  location_search (cave st) g 0 60 (mk_loc 0 0) (rand st) = (i, near, r) ->
  i <> 60 ->
  summon_name_to_idx (Some "UNIQUE"%string) st = Ok u ->
  summon_name_to_idx (Some "WRAITH"%string) st = Ok w ->
  type <> u -> type <> w ->
  legal_cell (cave st) near
  /\ summon_specific g lev type delay true st
     = call_monster near (set_summon_specific_type (set_rand st r) type)
  /\ (forall lvl st',
         summon_specific g lev type delay true st = Ok (lvl, st') ->
         summon_specific_type st' = type
         /\ mon_num_hook st' = mon_num_hook st)
  /\ (forall draw place,
         summon_specific (W := with_draw_and_placement W draw place)
                         g lev type delay true st
         = summon_specific g lev type delay true st).
Proof.
  intros Hsearch Hi Hu Hw Hnu Hnw.
  pose proof (summon_specific_call_path g lev type delay st i near r u w
                Hsearch Hi Hu Hw Hnu Hnw) as Hcall.
  split; [|split; [done|split]].
  - by destruct (location_search_found (cave st) g 60 0 i (mk_loc 0 0) near
                   (rand st) r) as (_ & ? & _); [lia|done|lia|].
  - intros lvl st'. rewrite Hcall. intros H.
    by apply call_monster_frame in H as (-> & -> & _).
  - intros draw place. rewrite Hcall.
    rewrite <- (location_search_world W draw place) in Hsearch.
    rewrite (summon_specific_call_path
               (W := with_draw_and_placement W draw place)
               g lev type delay st i near r u w Hsearch Hi Hu Hw Hnu Hnw).
    apply call_monster_world.
Qed.

(** ** The delay of a summoned monster *)

Lemma delay_monster_energy (mon : monster) (rc : monster_race) (p : player_t) :
  energy (delay_monster mon rc p) = 0.
Proof. unfold delay_monster. by destruct (negb _). Qed.

Lemma delay_monster_hold (mon : monster) (rc : monster_race) (p : player_t) :
  m_timed_hold (delay_monster mon rc p)
  = if Z.quot (speed rc + 9 - state_speed p) 10 =? 0 then m_timed_hold mon
    else Z.quot (speed rc + 9 - state_speed p) 10.
Proof. unfold delay_monster. by destruct (_ =? 0). Qed.

(** Unless the placed monster is slower than the player by ten or more
    after the bias of nine, the block does what the floor formula asks:
    a hold of [turns] when [turns > 0], no hold otherwise. *)
Lemma delay_monster_not_slower (mon : monster) (rc : monster_race) (p : player_t) :
  -10 < speed rc + 9 - state_speed p ->
  m_timed_hold (delay_monster mon rc p)
  = if 0 <? (speed rc + 9 - state_speed p) / 10
    then (speed rc + 9 - state_speed p) / 10
    else m_timed_hold mon.
Proof.
  intros Hx. rewrite delay_monster_hold.
  set (x := speed rc + 9 - state_speed p) in *.
  destruct (Z.le_gt_cases 0 x) as [Hpos|Hneg].
  - rewrite Z.quot_div_nonneg by lia.
    pose proof (Z.div_pos x 10 Hpos ltac:(lia)).
    destruct (Z.eqb_spec (x / 10) 0), (Z.ltb_spec 0 (x / 10)); lia.
  - assert (Z.quot x 10 = 0) as ->.
    { rewrite <- (Z.opp_involutive x), Z.quot_opp_l by lia.
      rewrite Z.quot_small by lia. done. }
    assert (x / 10 < 0) by (apply Z.div_lt_upper_bound; lia).
    simpl. destruct (Z.ltb_spec 0 (x / 10)); [lia|done].
Qed.

(** A monster that much slower gets a negative hold. *)
Lemma delay_monster_slower (mon : monster) (rc : monster_race) (p : player_t) :
  speed rc + 9 - state_speed p <= -10 ->
  m_timed_hold (delay_monster mon rc p)
  = Z.quot (speed rc + 9 - state_speed p) 10
  /\ m_timed_hold (delay_monster mon rc p) < 0.
Proof.
  intros Hx. rewrite delay_monster_hold.
  set (x := speed rc + 9 - state_speed p) in *.
  assert (Z.quot x 10 <= -1).
  { rewrite <- (Z.opp_involutive x), Z.quot_opp_l by lia.
    assert (1 <= Z.quot (- x) 10); [|lia].
    rewrite Z.quot_div_nonneg by lia. apply Z.div_le_lower_bound; lia. }
  destruct (Z.eqb_spec (Z.quot x 10) 0); lia.
Qed.

(** C3.  A hound of speed 110 conjured with [delay] set while the player
    moves at speed 130: [turns] is [(110 + 9 - 130) / 10], which C truncates
    to [-1] (the floor is [-2]); [if (turns)] takes a negative [turns] for
    true, and the new monster is left with a held timer of [-1] where no
    hold is due. *)
Theorem delay_holds_slower_monster :
  delay_monster (mk_monster (Some Demo.hound) (mk_loc 6 5) 10 0) Demo.hound
                (mk_player 5 130)
  = Demo.held_hound
  /\ (speed Demo.hound + 9 - 130) / 10 = -2
  /\ exists st',
      summon_specific (W := Demo.world) (mk_loc 5 5) 3 1 true false Demo.hasted
      = Ok (12, st')
      /\ monsters (cave st') !! 5%nat = Some Demo.held_hound.
Proof.
  split; [reflexivity|]. split; [reflexivity|].
  eexists. split; [vm_compute; reflexivity|]. reflexivity.
Qed.

(** ** The statements at work on the concrete world *)

Lemma demo_randint0_in_range : randint0_in_range Demo.world.
Proof.
  intros m r. simpl. destruct (Z.leb_spec m 1) as [Hle|Hgt]; simpl; [lia|].
  pose proof (Z.mod_pos_bound r m ltac:(lia)). lia.
Qed.

(** With two hounds out of sight, monsters 1 and 2, the hound called is
    monster 1; monster 2, the last candidate, is not. *)
Lemma call_monster_never_picks_last_witness :
  1 ∈ good_monsters (mk_loc 5 5) Demo.hound_call
  /\ last (good_monsters (mk_loc 5 5) Demo.hound_call) <> Some 1.
Proof.
  apply (call_monster_never_picks_last (W := Demo.world)
           (mk_loc 5 5) Demo.hound_call 1 1).
  - exact demo_randint0_in_range.
  - vm_compute. lia.
  - reflexivity.
Defined.

Lemma pool_restriction_cleared_witness :
  mon_num_hook (snd (select_shape (mk_monster None (mk_loc 0 0) 0 0) 1
                                  Demo.built)) = None
  /\ forall st',
      summon_specific (mk_loc 5 5) 3 1 true false Demo.hasted = Ok (12, st') ->
      mon_num_hook st' = None.
Proof.
  destruct (pool_restriction_cleared (W := Demo.world)) as [Hshape Hsummon].
  split; [apply Hshape|].
  intros st' H. apply (Hsummon _ _ _ _ _ _ _ _ H). reflexivity.
Defined.

Lemma summon_specific_no_location_witness :
  exists r,
    summon_specific (mk_loc 5 (-1)) 3 1 true true Demo.hasted
    = Ok (0, mk_state 0 5 0 Demo.registry None
                      (mk_chunk Demo.level_monsters 0 tt) (mk_player 5 130) r).
Proof.
  destruct (summon_specific_no_location (W := Demo.world)) as (_ & _ & H).
  destruct (H (mk_loc 5 (-1)) 3 1 true true Demo.hasted) as (r & _ & Hr).
  - apply (bool_decide_unpack _). vm_compute. exact I.
  - exists r. exact Hr.
Defined.

Lemma create_summons_registry_witness :
  summon_desc 4 Demo.built = Ok None
  /\ summon_desc 1 Demo.built = Ok (Some "hounds"%string).
Proof.
  destruct (create_summons_registry Demo.parsed Demo.blank Demo.built)
    as (_ & _ & _ & _ & Hout & Hin & _).
  - reflexivity.
  - split.
    + apply Hout. right. simpl. lia.
    + apply (Hin 1%nat Demo.hounds). reflexivity.
Defined.

(** A catalogue of one record without a description: [summon_desc]
    returns none at index 0, inside [[0, 1)]. *)
Lemma no_description_inside_range :
  ~ (forall (parsed : list summon) (st st' : state unit Z),
        create_summons parsed st = Ok st' ->
        forall z, summon_desc z st' = Ok None
                  <-> z < 0 \/ Z.of_nat (length parsed) <= z).
Proof.
  intros H.
  destruct (H [Demo.undescribed] Demo.blank Demo.undescribed_built eq_refl 0)
    as [Hout _].
  destruct (Hout eq_refl) as [Hneg|Hge]; simpl in *; lia.
Qed.

(** "HOUND" lists base 7 and forbids uniques: the unique hound of base 7
    is rejected although its base is listed. *)
Lemma listed_base_yet_rejected :
  ~ (forall (st : state unit Z) (rc : monster_race) (s : summon),
        arr_get (summons st) (summon_specific_type st) = Ok s ->
        bases s <> [] ->
        (summon_specific_okay rc st = Ok false <-> base rc ∉ bases s)).
Proof.
  intros H.
  destruct (H Demo.hound_call Demo.ancient_hound (set_fallback Demo.hounds 0))
    as [Hrej _]; [reflexivity | discriminate |].
  apply Hrej; [reflexivity|]. simpl. left.
Qed.

Lemma bases_check_membership_witness :
  summon_specific_okay Demo.dragon Demo.hound_call = Ok false
  /\ (summon_specific_okay Demo.hound Demo.hound_call = Ok false
      <-> base Demo.hound ∉ bases (set_fallback Demo.hounds 0)).
Proof.
  destruct (bases_check_membership (W := Demo.world) Demo.dragon Demo.hound_call
              (set_fallback Demo.hounds 0)) as (_ & _ & Hrej & _);
    [reflexivity|].
  destruct (bases_check_membership (W := Demo.world) Demo.hound Demo.hound_call
              (set_fallback Demo.hounds 0)) as (_ & _ & _ & _ & Hiff);
    [reflexivity|].
  split.
  - apply Hrej; [discriminate|]. apply (bool_decide_unpack _). vm_compute. exact I.
  - apply (Hiff 0).
    + discriminate.
    + intros _. reflexivity.
    + intros Hflag. exfalso. apply Hflag. reflexivity.
    + reflexivity.
    + discriminate.
Defined.

Lemma summon_specific_delegates_to_call_witness :
  summon_specific (mk_loc 5 5) 3 1 true true Demo.hasted
  = call_monster (mk_loc 6 5)
                 (set_summon_specific_type (set_rand Demo.hasted 1) 1).
Proof.
  destruct (summon_specific_delegates_to_call Demo.world (mk_loc 5 5) 3 1 true
              Demo.hasted 0 (mk_loc 6 5) 1 2 3) as (_ & H & _);
    [reflexivity | lia | reflexivity | reflexivity | lia | lia |].
  exact H.
Defined.

Lemma lookup_reaches_zeroed_record_witness :
  summon_name_to_idx (Some "HYDRA"%string) Demo.built = Fault NullString
  /\ create_summons (Demo.parsed ++ [Demo.orphan]) Demo.blank
     = Fault NullString.
Proof.
  destruct (@lookup_reaches_zeroed_record unit Z) as [Hlookup Hbuild].
  split.
  - apply (Hlookup Demo.parsed Demo.blank Demo.built); [reflexivity|].
    apply (bool_decide_unpack _). vm_compute. exact I.
  - apply (Hbuild _ _ Demo.orphan "ANIMAL"%string).
    + apply elem_of_app. right. left.
    + reflexivity.
    + apply (bool_decide_unpack _). vm_compute. exact I.
Defined.

(** ** More on the registry: lookup, fallbacks, accessors *)

Lemma first_named_cons (s : string) (rec : summon) (l : list summon) (i : nat) :
  named_other s rec -> first_named s l i -> first_named s (rec :: l) (S i).
Proof.
  intros Hrec [Hat Hbefore]. split; [done|].
  intros [|k] rec' Hk; simpl.
  - by intros [= <-].
  - apply Hbefore. lia.
Qed.

Lemma first_named_tail (s : string) (rec : summon) (l : list summon) (i : nat) :
  first_named s (rec :: l) (S i) -> named_other s rec /\ first_named s l i.
Proof.
  intros [Hat Hbefore]. split.
  - apply (Hbefore 0%nat); [lia|done].
  - split; [done|]. intros k rec' Hk Hl. apply (Hbefore (S k)); [lia|done].
Qed.

Lemma lookup_from_found (s : string) (l : list summon) (i : nat) (k : Z) :
  first_named s l i -> lookup_from s l k = Ok (k + Z.of_nat i).
Proof.
  revert i k. induction l as [|rec l IH]; intros i k Hfirst.
  - destruct Hfirst as [(rec & Hrec & _) _]. done.
  - destruct i as [|i]; simpl.
    + destruct Hfirst as [(rec' & [= <-] & ->) _].
      rewrite String.eqb_refl. f_equal. lia.
    + apply first_named_tail in Hfirst as [(s' & Hname & Hne) Hfirst].
      rewrite Hname.
      destruct (String.eqb_spec s s') as [->|_]; [done|].
      rewrite (IH i) by done. f_equal. lia.
Qed.

Lemma lookup_from_absent (s : string) (l : list summon) (k : Z) :
  Forall (named_other s) l -> lookup_from s l k = Ok (-1).
Proof.
  intros Hall. revert k.
  induction Hall as [|rec l (s' & Hname & Hne) _ IH]; intros k; simpl; [done|].
  rewrite Hname.
  destruct (String.eqb_spec s s') as [->|_]; [done|]. apply IH.
Qed.

Lemma lookup_from_ok (s : string) (l : list summon) (k j : Z) :
  0 <= k -> lookup_from s l k = Ok j ->
  (j = -1 /\ Forall (named_other s) l)
  \/ (k <= j /\ first_named s l (Z.to_nat (j - k))).
Proof.
  revert k. induction l as [|rec l IH]; intros k Hk; simpl.
  - intros [= <-]. left. split; [done | constructor].
  - destruct (name rec) as [s'|] eqn:Hname; [|done].
    destruct (String.eqb_spec s s') as [->|Hne].
    + intros [= <-]. right. split; [lia|]. rewrite Z.sub_diag.
      split; [by exists rec|]. intros k' rec' Hk'. lia.
    + intros Hrest.
      apply (IH (k + 1) ltac:(lia)) in Hrest as [[-> Hall]|[Hle Hfirst]].
      * left. split; [done|]. constructor; [|done]. by exists s'.
      * right. split; [lia|].
        replace (Z.to_nat (j - k)) with (S (Z.to_nat (j - (k + 1)))) by lia.
        apply first_named_cons; [|done]. by exists s'.
Qed.

(** The first record of a name in a table is still the first one in front
    of a record without a name, and conversely. *)
Lemma first_named_blank (s : string) (l : list summon) (blank : summon) (i : nat) :
  name blank = None ->
  first_named s (l ++ [blank]) i <-> first_named s l i.
Proof.
  intros Hblank. split.
  - intros [(rec & Hrec & Hname) Hbefore].
    assert (i < length l)%nat as Hlt.
    { destruct (decide (i < length l)%nat) as [|Hge]; [done|]. exfalso.
      apply lookup_lt_Some in Hrec as Hi. rewrite length_app in Hi. simpl in Hi.
      assert (i = length l) as -> by lia.
      rewrite list_lookup_middle in Hrec by done.
      injection Hrec as <-. congruence. }
    split.
    + exists rec. by rewrite lookup_app_l in Hrec.
    + intros k rec' Hk Hl. apply (Hbefore k); [done|].
      by rewrite lookup_app_l by lia.
  - intros [(rec & Hrec & Hname) Hbefore].
    apply lookup_lt_Some in Hrec as Hlt. split.
    + exists rec. by rewrite lookup_app_l.
    + intros k rec' Hk. rewrite lookup_app_l by lia. by apply Hbefore.
Qed.

Lemma resolve_list_lookup (a l l' : list summon) (i : nat) (rec : summon) :
  resolve_list a l = Ok l' -> l !! i = Some rec ->
  exists idx,
    l' !! i = Some (set_fallback rec idx)
    /\ lookup_in (fallback_name rec) a = Ok idx.
Proof.
  revert l' i. induction l as [|r l IH]; intros l' i; simpl; [done|].
  intros H. apply bind_ok in H as (idx & Hidx & H).
  apply bind_ok in H as (rest & Hrest & [= <-]).
  destruct i as [|i]; simpl.
  - intros [= ->]. eauto.
  - by apply IH.
Qed.

Section RegistryUse.
Context {Sq R : Type}.
Implicit Type st : state Sq R.

Lemma create_summons_resolved (parsed : list summon) st st' :
  create_summons parsed st = Ok st' ->
  exists recs,
    resolve_list (parsed ++ [zero_summon]) parsed = Ok recs
    /\ st' = set_registry st (Z.of_nat (length parsed) + 1)
                          (recs ++ [set_fallback zero_summon (-1)]).
Proof.
  rewrite create_summons_spec, resolve_list_app. intros H.
  apply bind_ok in H as (a & Ha & [= <-]).
  apply bind_ok in Ha as (recs & Hrecs & Ha).
  simpl in Ha. injection Ha as <-. by exists recs.
Qed.

(** X1.  Looking up a null name returns -1 whatever the registry holds,
    without reading a record; and while the registry is empty
    ([summon_max <= 0]) every lookup returns -1. *)
Theorem lookup_null_or_empty (nm : option string) st :
  nm = None \/ summon_max st <= 0 -> summon_name_to_idx nm st = Ok (-1).
Proof.
  unfold summon_name_to_idx. intros [->|Hempty].
  - apply name_scan_null.
  - by replace (Z.to_nat (summon_max st)) with 0%nat by lia.
Qed.

(** X2.  On a table of [summon_max] records, the lookup of a name returns
    the index of the first record of that name when every record before it
    has a name, and returns -1 when every record has another name; these
    are the only ways it returns. *)
Theorem lookup_first_match (s : string) st :
  summon_max st = Z.of_nat (length (summons st)) ->
  (forall i : nat, first_named s (summons st) i ->
                   summon_name_to_idx (Some s) st = Ok (Z.of_nat i))
  /\ (Forall (named_other s) (summons st) ->
      summon_name_to_idx (Some s) st = Ok (-1))
  /\ (forall j, summon_name_to_idx (Some s) st = Ok j ->
                (j = -1 /\ Forall (named_other s) (summons st))
                \/ (0 <= j /\ first_named s (summons st) (Z.to_nat j))).
Proof.
  intros Hmax. rewrite (summon_name_to_idx_lookup_in _ _ Hmax). simpl.
  split; [|split].
  - intros i Hi. by rewrite (lookup_from_found s _ i).
  - apply lookup_from_absent.
  - intros j Hj. apply lookup_from_ok in Hj; [|lia].
    by rewrite Z.sub_0_r in Hj.
Qed.

Lemma built_lookup (parsed recs : list summon) st (s : string) (i : nat) :
  Forall2 same_record parsed recs ->
  first_named s parsed i ->
  summon_name_to_idx (Some s)
    (set_registry st (Z.of_nat (length parsed) + 1)
                  (recs ++ [set_fallback zero_summon (-1)]))
  = Ok (Z.of_nat i).
Proof.
  intros Hrecs Hfirst. rewrite summon_name_to_idx_lookup_in.
  - cbn [lookup_in summons set_registry].
    rewrite (lookup_from_names s _ (parsed ++ [zero_summon]))
      by (rewrite !map_app; by rewrite (same_record_names _ _ Hrecs)).
    rewrite (lookup_from_found s _ i); [done|].
    by apply first_named_blank.
  - cbn. rewrite length_app, <- (Forall2_length _ _ _ Hrecs). simpl. lia.
Qed.

(** X3.  Index to name and back: after [create_summons] has built the
    registry from records that all have a name, no two alike, looking up the
    name of record [i] returns [i]. *)
Theorem lookup_of_name_is_index (parsed : list summon) st st'
        (i : nat) (rec : summon) (s : string) :
  create_summons parsed st = Ok st' ->
  Forall (fun r => name r <> None) parsed ->
  NoDup (map name parsed) ->
  parsed !! i = Some rec -> name rec = Some s ->
  summon_name_to_idx (Some s) st' = Ok (Z.of_nat i).
Proof.
  intros Hbuild Hnamed Hdistinct Hrec Hname.
  destruct (create_summons_ok _ _ _ Hbuild) as (recs & Hrecs & ->).
  apply built_lookup; [done|].
  split; [by exists rec|].
  intros k rec' Hk Hrec'.
  rewrite Forall_forall in Hnamed.
  destruct (name rec') as [s'|] eqn:Hname'.
  - exists s'. split; [done|]. intros ->.
    assert (k = i); [|lia].
    apply (NoDup_lookup _ _ _ (Some s) Hdistinct).
    + by rewrite list_lookup_fmap, Hrec'; simpl; rewrite Hname'.
    + by rewrite list_lookup_fmap, Hrec; simpl; rewrite Hname.
  - exfalso. apply (Hnamed rec'); [|done].
    apply list_elem_of_lookup. eauto.
Qed.
End RegistryUse.

Lemma arr_get_fault {A : Type} (a : list A) (z : Z) (f : fault) :
  arr_get a z = Fault f
  <-> f = OutOfBounds /\ (z < 0 \/ Z.of_nat (length a) <= z).
Proof.
  unfold arr_get. destruct (Z.ltb_spec z 0) as [Hneg|Hpos].
  - split; [intros [= <-]; auto | by intros [-> _]].
  - destruct (a !! Z.to_nat z) as [x|] eqn:Hz.
    + apply lookup_lt_Some in Hz. split; [done | intros [_ ?]; lia].
    + apply lookup_ge_None in Hz. split; [intros [= <-] | intros [-> _]];
        [split; [done | right; lia] | done].
Qed.

Lemma first_named_exists (s : string) (l : list summon) (rec : summon) :
  Forall (fun r => name r <> None) l ->
  rec ∈ l -> name rec = Some s ->
  exists i, first_named s l i.
Proof.
  intros Hnamed Hin Hname.
  induction Hin as [rec l|rec r l Hin IH].
  - exists 0%nat. split; [by exists rec|]. intros k rec' Hk. lia.
  - apply Forall_cons in Hnamed as [Hr Hnamed].
    destruct (name r) as [s'|] eqn:Hs'; [|done].
    destruct (String.eqb_spec s' s) as [->|Hne].
    + exists 0%nat. split; [by exists r|]. intros k rec' Hk. lia.
    + destruct (IH Hnamed Hname) as [i Hi]. exists (S i).
      apply first_named_cons; [by exists s' | done].
Qed.

Lemma first_named_elem (s : string) (l : list summon) (i : nat) :
  first_named s l i -> exists rec, rec ∈ l /\ name rec = Some s.
Proof.
  intros [(rec & Hrec & Hname) _]. exists rec. split; [|done].
  apply list_elem_of_lookup. eauto.
Qed.

(** What the scan of the built table can return for a fallback name. *)
Lemma lookup_in_built (parsed : list summon) (nm : option string) (idx : Z) :
  lookup_in nm (parsed ++ [zero_summon]) = Ok idx ->
  match nm with
  | None => idx = -1
  | Some s => 0 <= idx < Z.of_nat (length parsed)
              /\ first_named s parsed (Z.to_nat idx)
  end.
Proof.
  destruct nm as [s|]; simpl; [|by intros [= <-]].
  intros H.
  apply (lookup_from_ok s _ 0 idx ltac:(lia)) in H as [[_ Hall]|[Hpos Hfirst]].
  - apply Forall_app in Hall as [_ Hblank].
    apply Forall_singleton in Hblank as (s' & Hs' & _). done.
  - rewrite Z.sub_0_r in Hfirst.
    apply first_named_blank in Hfirst; [|done].
    split; [|done]. destruct Hfirst as [(rec & Hrec & _) _].
    apply lookup_lt_Some in Hrec. lia.
Qed.

Section RegistryAccess.
Context {Sq R : Type}.
Implicit Type st : state Sq R.

Lemma built_record (parsed : list summon) st st' (i : nat) (rec : summon) :
  create_summons parsed st = Ok st' -> parsed !! i = Some rec ->
  exists idx,
    arr_get (summons st') (Z.of_nat i) = Ok (set_fallback rec idx)
    /\ lookup_in (fallback_name rec) (parsed ++ [zero_summon]) = Ok idx.
Proof.
  intros Hbuild Hrec.
  destruct (create_summons_resolved _ _ _ Hbuild) as (recs & Hres & ->).
  destruct (resolve_list_lookup _ _ _ _ _ Hres Hrec) as (idx & Hidx & Hlook).
  exists idx. split; [|done].
  cbn [summons set_registry]. rewrite arr_get_nat.
  rewrite lookup_app_l by (by apply lookup_lt_Some in Hidx).
  by rewrite Hidx.
Qed.

(** X4.  After [create_summons], record [i] keeps its message type, and its
    fallback index is -1 when it has no fallback name and otherwise the
    index, inside the parsed records, of the first record carrying the
    fallback name, wherever in the list that record stands. *)
Theorem fallbacks_resolved (parsed : list summon) st st' (i : nat) (rec : summon) :
  create_summons parsed st = Ok st' -> parsed !! i = Some rec ->
  summon_message_type (Z.of_nat i) st' = Ok (message_type rec)
  /\ exists f,
      summon_fallback_type (Z.of_nat i) st' = Ok f
      /\ match fallback_name rec with
         | None => f = -1
         | Some s => 0 <= f < Z.of_nat (length parsed)
                     /\ first_named s parsed (Z.to_nat f)
         end.
Proof.
  intros Hbuild Hrec.
  destruct (built_record _ _ _ _ _ Hbuild Hrec) as (idx & Hget & Hlook).
  unfold summon_message_type, summon_fallback_type. rewrite Hget. cbn [bind].
  split; [done|]. exists idx. split; [done|].
  by apply lookup_in_built in Hlook.
Qed.

(** X5.  On records that all have a name, [create_summons] returns if and
    only if every fallback name is the name of one of the records. *)
Theorem create_summons_returns_iff (parsed : list summon) st :
  Forall (fun r => name r <> None) parsed ->
  (exists st', create_summons parsed st = Ok st')
  <-> Forall (fun rec => forall s, fallback_name rec = Some s ->
                exists rec', rec' ∈ parsed /\ name rec' = Some s) parsed.
Proof.
  intros Hnamed. split.
  - intros [st' Hbuild]. apply Forall_forall. intros rec Hin s Hfb.
    apply list_elem_of_lookup in Hin as [i Hrec].
    destruct (built_record _ _ _ _ _ Hbuild Hrec) as (idx & _ & Hlook).
    apply lookup_in_built in Hlook. rewrite Hfb in Hlook.
    destruct Hlook as [_ Hfirst]. by apply first_named_elem in Hfirst.
  - intros Hall. apply create_summons_succeeds.
    apply Forall_forall. intros rec Hin.
    rewrite Forall_forall in Hall. specialize (Hall rec Hin).
    destruct (fallback_name rec) as [s|]; simpl; [|eauto].
    destruct (Hall s eq_refl) as (rec' & Hin' & Hname').
    destruct (first_named_exists s parsed rec' Hnamed Hin' Hname') as [i Hi].
    exists (0 + Z.of_nat i). apply lookup_from_found.
    by apply first_named_blank.
Qed.

(** X6.  [summon_message_type] and [summon_fallback_type] do not check
    their index: on the built registry they read outside the table exactly
    for an index below 0 or above the number of parsed records, and at that
    number they read the zeroed element: message type 0, fallback -1. *)
Theorem accessors_unchecked (parsed : list summon) st st' :
  create_summons parsed st = Ok st' ->
  (forall z f, summon_message_type z st' = Fault f
               <-> f = OutOfBounds /\ (z < 0 \/ Z.of_nat (length parsed) < z))
  /\ (forall z f, summon_fallback_type z st' = Fault f
                  <-> f = OutOfBounds
                      /\ (z < 0 \/ Z.of_nat (length parsed) < z))
  /\ summon_message_type (Z.of_nat (length parsed)) st' = Ok 0
  /\ summon_fallback_type (Z.of_nat (length parsed)) st' = Ok (-1).
Proof.
  intros Hbuild.
  destruct (create_summons_ok _ _ _ Hbuild) as (recs & Hrecs & ->).
  pose proof (Forall2_length _ _ _ Hrecs) as Hlen.
  unfold summon_message_type, summon_fallback_type.
  cbn [summons set_registry].
  assert (Hfault : forall z f,
             arr_get (recs ++ [set_fallback zero_summon (-1)]) z = Fault f
             <-> f = OutOfBounds /\ (z < 0 \/ Z.of_nat (length parsed) < z)).
  { intros z f. rewrite arr_get_fault, length_app, Hlen. simpl.
    split; intros [-> Hz]; (split; [done | lia]). }
  split; [|split; [|split]].
  - intros z f. rewrite <- Hfault.
    destruct (arr_get _ z); cbn [bind];
      [split; discriminate | split; intros [= <-]; reflexivity].
  - intros z f. rewrite <- Hfault.
    destruct (arr_get _ z); cbn [bind];
      [split; discriminate | split; intros [= <-]; reflexivity].
  - rewrite Hlen, arr_get_middle. done.
  - rewrite Hlen, arr_get_middle. done.
Qed.

(** X7.  [create_summons] writes the registry and nothing else: when it
    returns, [summon_max] is the number of parsed records plus one, which is
    the size of the table, the rest of the state is as before, and the
    outcome is the same whatever registry was there before. *)
Theorem create_summons_replaces (parsed : list summon) st st'
        (n : Z) (a : list summon) :
  create_summons parsed st = Ok st' ->
  summon_max st' = Z.of_nat (length parsed) + 1
  /\ Z.of_nat (length (summons st')) = summon_max st'
  /\ summon_specific_type st' = summon_specific_type st
  /\ kin_base st' = kin_base st
  /\ mon_num_hook st' = mon_num_hook st
  /\ cave st' = cave st /\ player st' = player st /\ rand st' = rand st
  /\ create_summons parsed (set_registry st n a) = Ok st'.
Proof.
  intros Hbuild.
  pose proof Hbuild as Hbuild'.
  rewrite create_summons_spec in Hbuild'.
  destruct (create_summons_ok _ _ _ Hbuild) as (recs & Hrecs & ->).
  pose proof (Forall2_length _ _ _ Hrecs) as Hlen.
  repeat split.
  - cbn. rewrite length_app. simpl. lia.
  - rewrite create_summons_spec.
    destruct (resolve_list _ _) as [l|f]; [|done].
    cbn [bind] in *. by injection Hbuild' as <-.
Qed.
End RegistryAccess.

(** ** More on eligibility and calling *)

Section EligibilityUse.
Context {Sq R : Type} {W : World Sq R}.
Implicit Type st : state Sq R.

Lemma summon_specific_okay_total (rc : monster_race) st (s : summon) (kin : Z) :
  arr_get (summons st) (summon_specific_type st) = Ok s ->
  summon_name_to_idx (Some "KIN"%string) st = Ok kin ->
  exists b, summon_specific_okay rc st = Ok b.
Proof.
  intros Hrec Hkin. rewrite (summon_specific_okay_eq rc st s Hrec), Hkin.
  cbn [bind].
  repeat match goal with |- context [if ?b then _ else _] => destruct b end;
    eauto.
Qed.

(** X8.  A race that fails the unique check, the base-list check or the
    race-flag check of the active record is rejected before "KIN" is looked
    up; a race that passes the three is admitted under every type other than
    the one found for "KIN", and left to the lookup's fault when the lookup
    has one; and no race is admitted without passing the three. *)
Theorem okay_filters (rc : monster_race) st (s : summon) :
  arr_get (summons st) (summon_specific_type st) = Ok s ->
  (~ (passes_unique s rc /\ passes_bases s rc /\ passes_race_flag s rc) ->
   summon_specific_okay rc st = Ok false)
  /\ (summon_specific_okay rc st = Ok true ->
      passes_unique s rc /\ passes_bases s rc /\ passes_race_flag s rc)
  /\ (passes_unique s rc -> passes_bases s rc -> passes_race_flag s rc ->
      (forall kin,
          summon_name_to_idx (Some "KIN"%string) st = Ok kin ->
          kin <> summon_specific_type st ->
          summon_specific_okay rc st = Ok true)
      /\ (forall f,
             summon_name_to_idx (Some "KIN"%string) st = Fault f ->
             summon_specific_okay rc st = Fault f)).
Proof.
  intros Hrec. rewrite (summon_specific_okay_eq rc st s Hrec).
  pose proof (passes_unique_bool s rc) as Hu.
  pose proof (passes_bases_bool s rc) as Hb.
  pose proof (passes_race_flag_bool s rc) as Hf.
  destruct (negb (unique_allowed s) && rf_has (flags rc) RF_UNIQUE).
  { split; [done|]. split; [done|]. intros H. apply Hu in H. done. }
  destruct (negb (bases_loop (base rc) (bases s))).
  { split; [done|]. split; [done|]. intros _ H. apply Hb in H. done. }
  destruct (negb (race_flag s =? 0) && negb (rf_has (flags rc) (race_flag s))).
  { split; [done|]. split; [done|]. intros _ _ H. apply Hf in H. done. }
  assert (passes_unique s rc /\ passes_bases s rc /\ passes_race_flag s rc)
    as Hall by (split; [by apply Hu | split; [by apply Hb | by apply Hf]]).
  split; [done|]. split; [done|]. intros _ _ _. split.
  - intros kin -> Hne. cbn [bind].
    by destruct (Z.eqb_spec (summon_specific_type st) kin).
  - by intros f ->.
Qed.

Lemma built_lookup_unmatched (parsed : list summon) st st' (s : string) :
  create_summons parsed st = Ok st' ->
  Forall (fun rec => name rec <> Some s) parsed ->
  summon_name_to_idx (Some s) st' = Fault NullString.
Proof.
  intros Hbuild Hnone.
  destruct (create_summons_ok _ _ _ Hbuild) as (recs & Hrecs & ->).
  rewrite summon_name_to_idx_lookup_in.
  - cbn [lookup_in summons set_registry].
    rewrite (lookup_from_names s _ (parsed ++ [zero_summon]))
      by (rewrite !map_app; by rewrite (same_record_names _ _ Hrecs)).
    apply lookup_from_unmatched; [done|].
    intros rec Hin. rewrite Forall_forall in Hnone. by apply Hnone.
  - cbn. rewrite length_app, <- (Forall2_length _ _ _ Hrecs). simpl. lia.
Qed.

(** X9.  On a registry built from a catalogue without a record named "KIN",
    the predicate admits nobody: under any type of the table, every race
    that passes the three checks runs the "KIN" lookup into the null name of
    the zeroed element. *)
Theorem okay_without_kin (parsed : list summon) st st' (type : Z)
        (rc : monster_race) (s : summon) :
  create_summons parsed st = Ok st' ->
  Forall (fun rec => name rec <> Some "KIN"%string) parsed ->
  arr_get (summons st') type = Ok s ->
  passes_unique s rc -> passes_bases s rc -> passes_race_flag s rc ->
  summon_specific_okay rc (set_summon_specific_type st' type)
  = Fault NullString.
Proof.
  intros Hbuild Hnokin Hrec Hu Hb Hf.
  rewrite (summon_specific_okay_eq rc _ s) by done.
  apply passes_unique_bool in Hu. apply passes_bases_bool in Hb.
  apply passes_race_flag_bool in Hf. rewrite Hu, Hb, Hf.
  change (summon_name_to_idx (Some "KIN"%string)
            (set_summon_specific_type st' type))
    with (summon_name_to_idx (Some "KIN"%string) st').
  by rewrite (built_lookup_unmatched parsed st st').
Qed.

Lemma can_call_monster_total (g : loc) (mon : monster) st (s : summon) (kin : Z) :
  arr_get (summons st) (summon_specific_type st) = Ok s ->
  summon_name_to_idx (Some "KIN"%string) st = Ok kin ->
  exists b, can_call_monster g mon st = Ok b.
Proof.
  intros Hrec Hkin. unfold can_call_monster.
  destruct (race mon) as [rc|]; [|eauto].
  destruct (summon_specific_okay_total rc st s kin Hrec Hkin) as [b ->].
  cbn [bind]. destruct b; cbn [negb]; [|eauto].
  destruct (los _ _ _); eauto.
Qed.

Lemma count_good_total (g : loc) st (s : summon) (kin : Z) (n : nat) (i k : Z) :
  arr_get (summons st) (summon_specific_type st) = Ok s ->
  summon_name_to_idx (Some "KIN"%string) st = Ok kin ->
  0 <= i -> n = 0%nat \/ i + Z.of_nat n <= cave_monster_max (cave st) ->
  exists c, count_good g st i n k = Ok c.
Proof.
  intros Hrec Hkin. revert i k.
  induction n as [|n IH]; intros i k Hi Hmax; simpl; [eauto|].
  destruct Hmax as [|Hmax]; [done|].
  unfold cave_monster, cave_monster_max in *.
  destruct (lookup_lt_is_Some_2 (monsters (cave st)) (Z.to_nat i)) as [mon Hmon];
    [lia|].
  assert (arr_get (monsters (cave st)) i = Ok mon) as ->
    by (by apply arr_get_ok).
  cbn [bind].
  destruct (can_call_monster_total g mon st s kin Hrec Hkin) as [b ->].
  cbn [bind]. apply IH; [lia | right; lia].
Qed.

(** The scan of [call_monster] returns, with the candidates found. *)
Lemma call_monster_scan (g : loc) st (s : summon) (kin : Z) :
  arr_get (summons st) (summon_specific_type st) = Ok s ->
  summon_name_to_idx (Some "KIN"%string) st = Ok kin ->
  let n := Z.to_nat (cave_monster_max (cave st) - 1) in
  let c := Z.of_nat (length (good_monsters g st)) in
  count_good g st 1 n 0 = Ok c
  /\ store_good g st 1 n 0 (replicate (Z.to_nat c) 0)
     = Ok (c, good_monsters g st).
Proof.
  intros Hrec Hkin n c.
  destruct (count_good_total g st s kin n 1 0 Hrec Hkin) as [c' Hcount];
    [lia | subst n; unfold cave_monster_max; lia |].
  pose proof (count_good_spec _ _ _ _ _ _ Hcount) as Hc.
  assert (c' = c) as -> by (subst c; unfold good_monsters; fold n; lia).
  split; [done|].
  pose proof (store_good_spec g st n 1 0 c [] (Z.to_nat c) Hcount) as Hstore.
  cbn [app length] in Hstore. change (Z.of_nat 0) with 0 in Hstore.
  rewrite Hstore by (subst c; unfold good_monsters; fold n; lia).
  unfold good_monsters in *. fold n in c |- *.
  replace (Z.to_nat c - length (goods g st 1 n))%nat with 0%nat
    by (subst c; lia).
  cbn [replicate]. rewrite app_nil_r. done.
Qed.

(** X10.  Whatever the generator draws, the monster that [call_monster]
    selects is one of the level's monsters from index 1 on, alive, admitted by
    the eligibility predicate, and standing out of line of sight of the
    target grid. *)
Theorem call_monster_pick_is_candidate (g : loc) st (i : Z) (r : R) :
  call_monster_pick g st = Ok (Some (i, r)) ->
  1 <= i < cave_monster_max (cave st)
  /\ exists mon rc,
      cave_monster (cave st) i = Ok mon
      /\ race mon = Some rc
      /\ summon_specific_okay rc st = Ok true
      /\ los (cave st) g (grid mon) = false.
Proof.
  intros Hpick.
  apply call_monster_pick_spec in Hpick as (choice & _ & Hi).
  apply arr_get_ok in Hi as [_ Hi].
  assert (i ∈ good_monsters g st) as Hin
    by (apply list_elem_of_lookup; eauto).
  apply goods_elem in Hin as [Hrange Hgood]. split; [lia|].
  unfold is_good in Hgood.
  destruct (cave_monster (cave st) i) as [mon|]; [|done]. cbn [bind] in Hgood.
  unfold can_call_monster in Hgood.
  destruct (race mon) as [rc|] eqn:Hrace; [|done].
  destruct (summon_specific_okay rc st) as [[|]|] eqn:Hokay;
    cbn [bind negb] in Hgood; try done.
  destruct (los (cave st) g (grid mon)) eqn:Hlos; [done|].
  by exists mon, rc.
Qed.

(** X11.  With the active record in the table and "KIN" found, a level
    with no candidate makes [call_monster] return 0 and leave the whole
    state, generator included, as it was. *)
Theorem call_monster_none (g : loc) st (s : summon) (kin : Z) :
  arr_get (summons st) (summon_specific_type st) = Ok s ->
  summon_name_to_idx (Some "KIN"%string) st = Ok kin ->
  good_monsters g st = [] ->
  call_monster g st = Ok (0, st).
Proof.
  intros Hrec Hkin Hnone.
  destruct (call_monster_scan g st s kin Hrec Hkin) as [Hcount _].
  unfold call_monster, call_monster_pick. rewrite Hcount, Hnone. done.
Qed.

(** X12.  With the active record in the table, "KIN" found and [randint0]
    within its range, a level with exactly one candidate makes
    [call_monster] select it, drawing once from the generator. *)
Theorem call_monster_single (g : loc) st (s : summon) (kin j : Z) :
  randint0_in_range W ->
  arr_get (summons st) (summon_specific_type st) = Ok s ->
  summon_name_to_idx (Some "KIN"%string) st = Ok kin ->
  good_monsters g st = [j] ->
  call_monster_pick g st = Ok (Some (j, snd (randint0 0 (rand st)))).
Proof.
  intros Hrange Hrec Hkin Hone.
  destruct (call_monster_scan g st s kin Hrec Hkin) as [Hcount Hstore].
  unfold call_monster_pick. rewrite Hcount. cbn [bind].
  rewrite Hone in *. cbn [length] in *.
  change (Z.of_nat 1) with 1 in *. cbn [Z.eqb].
  rewrite Hstore. cbn [bind].
  change (1 - 1) with 0.
  specialize (Hrange 0 (rand st)).
  destruct (randint0 0 (rand st)) as [choice r]. cbn [fst snd] in *.
  assert (choice = 0) as -> by lia. done.
Qed.
End EligibilityUse.

(** ** More on conjure-and-place *)

Lemma arr_set_get {A : Type} (a a' : list A) (i : Z) (x : A) :
  arr_set a i x = Ok a' -> arr_get a' i = Ok x.
Proof.
  unfold arr_set.
  destruct (Z.leb_spec 0 i) as [Hpos|]; [|done].
  destruct (Z.ltb_spec i (Z.of_nat (length a))) as [Hlt|]; [|done].
  intros [= <-]. apply arr_get_ok. split; [done|].
  apply list_lookup_insert_eq. lia.
Qed.

Lemma delay_monster_race (mon : monster) (rc : monster_race) (p : player_t) :
  race (delay_monster mon rc p) = race mon.
Proof. unfold delay_monster. by destruct (negb _). Qed.

Section SummonUse.
Context {Sq R : Type} {W : World Sq R}.
Implicit Type st : state Sq R.

(** What a returning [call_monster] has done. *)
Lemma call_monster_result (g : loc) st (lvl : Z) st' :
  call_monster g st = Ok (lvl, st') ->
  (call_monster_pick g st = Ok None /\ lvl = 0 /\ st' = st)
  \/ (exists i r mon,
         call_monster_pick g st = Ok (Some (i, r))
         /\ rand st' = r
         /\ cave_monster (cave st') i = Ok mon
         /\ energy mon = 0
         /\ level <$> race mon = Some lvl
         /\ summon_specific_type st' = summon_specific_type st
         /\ mon_num_hook st' = mon_num_hook st
         /\ summons st' = summons st /\ summon_max st' = summon_max st
         /\ kin_base st' = kin_base st /\ player st' = player st).
Proof.
  unfold call_monster. intros H.
  apply bind_ok in H as (pick & Hpick & H).
  destruct pick as [[i r]|].
  - right. apply bind_ok in H as (mon0 & Hmon0 & H). cbv zeta in H.
    apply bind_ok in H as (mon & Hmon & H).
    apply bind_ok in H as (ms & Hms & H).
    apply bind_ok in H as (rc & Hrc & H).
    injection H as <- <-.
    exists i, r, (set_energy mon 0).
    split; [done|]. split; [done|].
    split; [by apply arr_set_get in Hms|]. split; [done|].
    split; [|done]. cbn. by destruct (race mon); [injection Hrc as ->|].
  - left. by injection H as <- <-.
Qed.

(** The paths of a returning [summon_specific], one by one. *)
Lemma summon_specific_cases (g : loc) (lev type : Z) (delay call : bool) st
      (lvl : Z) st' (i : Z) (near : loc) (r : R) :
  location_search (cave st) g 0 60 (mk_loc 0 0) (rand st) = (i, near, r) ->
  summon_specific g lev type delay call st = Ok (lvl, st') ->
  let st1 := set_summon_specific_type (set_rand st r) type in
  (i = 60 /\ lvl = 0 /\ st' = set_rand st r)
  \/ (i <> 60 /\ use_calling_scheme type call st1 = Ok true
      /\ call_monster near st1 = Ok (lvl, st'))
  \/ (i <> 60 /\ use_calling_scheme type call st1 = Ok false
      /\ exists drawn r2,
          get_mon_num (Some (fun rc => summon_specific_okay rc st1))
                      (Z.quot (depth (player st) + lev) 2 + 5) r
          = (drawn, r2)
          /\ let st3 := mk_state type (summon_max st) (kin_base st)
                                 (summons st) None (cave st) (player st) r2 in
             match drawn with
             | None => lvl = 0 /\ st' = st3
             | Some rc =>
                 exists info placed c r3,
                 place_new_monster (cave st) near rc false false info
                                   ORIGIN_DROP_SUMMON r2 = (placed, c, r3)
                 /\ let st4 := set_rand (set_cave st3 c) r3 in
                    if placed
                    then exists m mon mrace,
                        square_monster c near = Some m
                        /\ cave_monster c m = Ok mon
                        /\ race mon = Some mrace
                        /\ lvl = level mrace
                        /\ if delay
                           then exists ms,
                               arr_set (monsters c) m
                                       (delay_monster mon mrace (player st))
                               = Ok ms
                               /\ st' = set_cave st4 (set_monsters c ms)
                           else st' = st4
                    else lvl = 0 /\ st' = st4
             end).
Proof.
  intros Hsearch H. cbv zeta. unfold summon_specific in H.
  rewrite Hsearch in H.
  destruct (Z.eqb_spec i 60) as [Hi|Hi].
  { left. by injection H as <- <-. }
  apply bind_ok in H as (calling & Hcalling & H).
  destruct calling; [by right; left|].
  right; right. split; [done|]. split; [done|].
  cbn [mon_num_hook get_mon_num_prep rand set_rand player cave set_cave
         set_summon_specific_type summon_specific_type summon_max kin_base
         summons] in H |- *.
  destruct (get_mon_num _ _ r) as [drawn r2] eqn:Hdraw.
  exists drawn, r2. split; [done|].
  destruct drawn as [rc|]; [|by injection H as <- <-].
  apply bind_ok in H as (info & _ & H).
  destruct (place_new_monster _ _ _ _ _ _ _ _) as [[placed c] r3] eqn:Hplace.
  exists info, placed, c, r3. split; [done|].
  destruct placed; cbn [negb] in H; [|by injection H as <- <-].
  apply bind_ok in H as (m & Hm & H).
  apply bind_ok in H as (mon & Hmon & H).
  apply bind_ok in H as (mrace & Hmrace & H).
  exists m, mon, mrace.
  split; [by destruct (square_monster _ _); [injection Hm as ->|]|].
  split; [done|].
  split; [by destruct (race mon); [injection Hmrace as ->|]|].
  destruct delay.
  - apply bind_ok in H as (ms & Hms & H). injection H as <- <-.
    split; [done|]. by exists ms.
  - by injection H as <- <-.
Qed.
End SummonUse.

Lemma location_search_first {Sq R : Type} {W : World Sq R}
      (c : chunk Sq) (g : loc) (n : nat) (i j : Z) (near0 near : loc) (r r' : R) :
  0 <= i ->
  location_search c g i n near0 r = (j, near, r') ->
  j <> i + Z.of_nat n ->
  (forall (k : nat) cell,
      (k < Z.to_nat (j - i))%nat ->
      fst (scattered_cells c g i n r) !! k = Some cell ->
      ~ legal_cell c cell)
  /\ r' = snd (scattered_cells c g i (S (Z.to_nat (j - i))) r).
Proof.
  revert i near0 r. induction n as [|n IH]; intros i near0 r Hi Hsearch Hj.
  - simpl in Hsearch. injection Hsearch as <- <- <-. lia.
  - simpl in Hsearch. rewrite scatter_distance_floor in Hsearch by done.
    cbn [scattered_cells].
    destruct (scatter c g (i / 15 + 1) true r) as [cell r1] eqn:Hscatter.
    destruct (square_legal c cell) eqn:Hlegal.
    + injection Hsearch as <- <- <-. rewrite Z.sub_diag. split.
      * intros k cell' Hk. simpl in Hk. lia.
      * simpl. done.
    + destruct (IH (i + 1) cell r1) as [Hbefore Hr]; [lia|done|lia|].
      replace (Z.to_nat (j - i)) with (S (Z.to_nat (j - (i + 1)))).
      2:{ pose proof (location_search_found c g n (i + 1) j cell near r1 r'
                        ltac:(lia) Hsearch ltac:(lia)) as [? _]. lia. }
      split.
      * intros k cell' Hk.
        destruct (scattered_cells c g (i + 1) n r1) as [l r2] eqn:Hrest.
        destruct k as [|k]; simpl.
        -- intros [= <-] Hcell. apply square_legal_iff in Hcell. congruence.
        -- apply Hbefore. lia.
      * cbn [scattered_cells] in Hr |- *.
        replace (i + 1 + 1 - 1) with (i + 1) in * by lia.
        destruct (scatter c g ((i + 1) / 15 + 1) true r1) as [cell2 r2].
        destruct (scattered_cells c g (i + 1 + 1) _ r2) as [l r3].
        done.
Qed.

Section SummonFacts.
Context {Sq R : Type} {W : World Sq R}.
Implicit Type st : state Sq R.

(** X13.  When [call_monster] returns, either there was no candidate, the
    result is 0 and the state is untouched, or a candidate has been chosen:
    it stands in the monster array with its energy at zero, the result is
    the level of its race, and the summon context, the registry, the kin
    base, the weighted pool and the player are as before. *)
Theorem call_monster_effect (g : loc) st (lvl : Z) st' :
  call_monster g st = Ok (lvl, st') ->
  (good_monsters g st = [] /\ lvl = 0 /\ st' = st)
  \/ (exists i mon,
         i ∈ good_monsters g st
         /\ cave_monster (cave st') i = Ok mon
         /\ energy mon = 0
         /\ level <$> race mon = Some lvl
         /\ summon_specific_type st' = summon_specific_type st
         /\ mon_num_hook st' = mon_num_hook st
         /\ summons st' = summons st /\ summon_max st' = summon_max st
         /\ kin_base st' = kin_base st /\ player st' = player st).
Proof.
  intros H. apply call_monster_result in H
    as [(Hpick & -> & ->)|(i & r & mon & Hpick & _ & Hmon & Hrest)].
  - left. by apply call_monster_pick_spec in Hpick.
  - right. exists i, mon. split; [|done].
    apply call_monster_pick_spec in Hpick as (choice & _ & Hi).
    apply arr_get_ok in Hi as [_ Hi]. apply list_elem_of_lookup. eauto.
Qed.

(** X14.  The location search stops at attempt 60 at the latest, and when
    it stops before, it has accepted the first legal cell of the scatter
    sequence: the cell of the attempt it stopped at is empty, unwarded and
    undecoyed, the cell of every earlier attempt is not, and the generator
    has been drawn from for these attempts only. *)
Theorem location_search_first_legal (c : chunk Sq) (g : loc) (near0 near : loc)
        (r r' : R) (j : Z) :
  location_search c g 0 60 near0 r = (j, near, r') ->
  0 <= j <= 60
  /\ (j <> 60 ->
      legal_cell c near
      /\ fst (scattered_cells c g 0 60 r) !! Z.to_nat j = Some near
      /\ (forall (k : nat) cell,
             (k < Z.to_nat j)%nat ->
             fst (scattered_cells c g 0 60 r) !! k = Some cell ->
             ~ legal_cell c cell)
      /\ r' = snd (scattered_cells c g 0 (S (Z.to_nat j)) r)).
Proof.
  intros Hsearch.
  destruct (decide (j = 60)) as [->|Hj];
    [split; [lia | intros Hne; by destruct Hne]|].
  destruct (location_search_found c g 60 0 j near0 near r r')
    as (Hrange & Hlegal & Hnth); [lia|done|lia|].
  destruct (location_search_first c g 60 0 j near0 near r r')
    as (Hbefore & Hr); [lia|done|lia|].
  rewrite Z.sub_0_r in *. split; [lia|]. intros _.
  split; [done|]. split; [done|]. split; [exact Hbefore | exact Hr].
Qed.

(** X15.  Whatever path it returns by, [summon_specific] leaves the
    registry, the kin base and the player as they were; the summon context
    is the requested type once a legal cell has been found, and is untouched
    when the search fails. *)
Theorem summon_specific_frame (g : loc) (lev type : Z) (delay call : bool) st
        (lvl : Z) st' :
  summon_specific g lev type delay call st = Ok (lvl, st') ->
  summons st' = summons st /\ summon_max st' = summon_max st
  /\ kin_base st' = kin_base st /\ player st' = player st
  /\ summon_specific_type st'
     = if fst (fst (location_search (cave st) g 0 60 (mk_loc 0 0) (rand st)))
          =? 60
       then summon_specific_type st else type.
Proof.
  intros H.
  destruct (location_search (cave st) g 0 60 (mk_loc 0 0) (rand st))
    as [[i near] r] eqn:Hsearch. cbn [fst].
  apply (summon_specific_cases _ _ _ _ _ _ _ _ _ _ _ Hsearch) in H.
  destruct H as [(-> & _ & ->)|[(Hi & _ & Hcall)|(Hi & _ & Hdraw)]].
  - done.
  - destruct (Z.eqb_spec i 60) as [|_]; [done|].
    apply call_monster_result in Hcall
      as [(_ & _ & ->)|(_ & _ & _ & _ & _ & _ & _ & _ & -> & _ & -> & -> & -> & ->)];
      done.
  - destruct (Z.eqb_spec i 60) as [|_]; [done|].
    destruct Hdraw as (drawn & r2 & _ & Hrest). cbv zeta in Hrest.
    destruct drawn as [rc|]; [|by destruct Hrest as [_ ->]].
    destruct Hrest as (info & placed & c & r3 & _ & Hrest).
    destruct placed; [|by destruct Hrest as [_ ->]].
    destruct Hrest as (m & mon & mrace & _ & _ & _ & _ & Hrest).
    destruct delay; [by destruct Hrest as (ms & _ & ->) | by subst st'].
Qed.

Lemma use_calling_scheme_state (type : Z) (call : bool) st (r : R) :
  use_calling_scheme type call (set_summon_specific_type (set_rand st r) type)
  = use_calling_scheme type call st.
Proof. reflexivity. Qed.

(** X16.  Once a legal cell is found, [summon_specific] goes on to the
    weighted draw, without consulting the registry, when [call] is false; it
    goes there too when the type is the index found for "UNIQUE", without
    the "WRAITH" lookup being made; and when both lookups return, it goes
    there if and only if [call] is false or the type is one of the two
    indices. *)
Theorem calling_scheme_skipped (g : loc) (type : Z) (call : bool) st
        (i : Z) (near : loc) (r : R) :
  location_search (cave st) g 0 60 (mk_loc 0 0) (rand st) = (i, near, r) ->
  i <> 60 ->
  reaches_draw g type false st
  /\ (summon_name_to_idx (Some "UNIQUE"%string) st = Ok type ->
      reaches_draw g type call st)
  /\ (forall u w,
         summon_name_to_idx (Some "UNIQUE"%string) st = Ok u ->
         summon_name_to_idx (Some "WRAITH"%string) st = Ok w ->
         (reaches_draw g type call st
          <-> call = false \/ type = u \/ type = w)).
Proof.
  intros Hsearch Hi.
  assert (Hreach : forall call',
             reaches_draw g type call' st
             <-> use_calling_scheme type call' st = Ok false).
  { intros call'. unfold reaches_draw. split.
    - intros (i' & near' & r' & Hs & _ & Hc). by rewrite Hsearch in Hs.
    - intros Hc. by exists i, near, r. }
  split; [by apply Hreach|]. split.
  - intros Hu. apply Hreach. unfold use_calling_scheme. rewrite Hu.
    cbn [bind]. rewrite Z.eqb_refl. by destruct call.
  - intros u w Hu Hw. rewrite Hreach. unfold use_calling_scheme.
    destruct call; [|split; auto].
    rewrite Hu. cbn [bind].
    destruct (Z.eqb_spec type u) as [|Hnu]; cbn [negb]; [split; auto|].
    rewrite Hw. cbn [bind].
    destruct (Z.eqb_spec type w) as [|Hnw]; cbn [negb]; [split; auto|].
    split; [done|]. intros [|[|]]; done.
Qed.

(** X17.  Take a requested type whose record is in the table, a registry
    in which "KIN" is found, and a source level and dungeon depth whose sum
    is an [int]: the eligibility predicate then returns on every race the
    pool may run it on, and the level asked of the pool,
    [(player->depth + lev) / 2 + 5], is computed without overflow.  When,
    further, a legal cell is found, the calling scheme is not used and the
    pool yields no race at that level, [summon_specific] returns 0 having
    placed nothing: the level, the registry and the player are as before,
    the pool is reset, the summon context is the requested type and the
    generator is where the draw left it. *)
Theorem summon_specific_failed_draw (g : loc) (lev type : Z)
        (delay call : bool) st (s : summon) (kin : Z)
        (i : Z) (near : loc) (r r2 : R) :
  arr_get (summons st) type = Ok s ->
  summon_name_to_idx (Some "KIN"%string) st = Ok kin ->
  int_range lev -> int_range (depth (player st)) ->
  int_range (depth (player st) + lev) ->
  location_search (cave st) g 0 60 (mk_loc 0 0) (rand st) = (i, near, r) ->
  i <> 60 ->
  use_calling_scheme type call st = Ok false ->
  get_mon_num
    (Some (fun rc =>
             summon_specific_okay rc
               (set_summon_specific_type (set_rand st r) type)))
    (Z.quot (depth (player st) + lev) 2 + 5) r = (None, r2) ->
  (forall rc, exists b,
        summon_specific_okay rc
          (set_summon_specific_type (set_rand st r) type) = Ok b)
  /\ int_range (Z.quot (depth (player st) + lev) 2 + 5)
  /\ summon_specific g lev type delay call st
     = Ok (0, mk_state type (summon_max st) (kin_base st) (summons st) None
                       (cave st) (player st) r2).
Proof.
  intros Hrec Hkin Hlev Hdepth Hsum Hsearch Hi Hcall Hdraw.
  split; [intros rc; by apply (summon_specific_okay_total rc _ s kin)|].
  split.
  { unfold int_range in *.
    pose proof (Z.quot_rem' (depth (player st) + lev) 2) as Hq.
    pose proof (Z.rem_bound_abs (depth (player st) + lev) 2 ltac:(lia)) as Hr.
    lia. }
  unfold summon_specific. rewrite Hsearch.
  destruct (Z.eqb_spec i 60) as [|_]; [done|].
  rewrite use_calling_scheme_state, Hcall. cbn [bind].
  cbn [mon_num_hook get_mon_num_prep rand set_rand player
         set_summon_specific_type].
  by rewrite Hdraw.
Qed.

(** X18.  A result other than 0 is the level of a monster that stands on
    the level when [summon_specific] returns; that monster's energy is zero
    when it was called, and when it was conjured with [delay] set. *)
Theorem summon_specific_nonzero (g : loc) (lev type : Z) (delay call : bool) st
        (lvl : Z) st' :
  summon_specific g lev type delay call st = Ok (lvl, st') ->
  lvl <> 0 ->
  exists m mon rc,
    cave_monster (cave st') m = Ok mon
    /\ race mon = Some rc /\ level rc = lvl
    /\ (delay = true \/ ~ reaches_draw g type call st -> energy mon = 0).
Proof.
  intros H Hlvl.
  destruct (location_search (cave st) g 0 60 (mk_loc 0 0) (rand st))
    as [[i near] r] eqn:Hsearch.
  apply (summon_specific_cases _ _ _ _ _ _ _ _ _ _ _ Hsearch) in H.
  destruct H as [(_ & ? & _)|[(Hi & _ & Hcall)|(Hi & Hscheme & Hdraw)]];
    [done| |].
  - apply call_monster_result in Hcall
      as [(_ & ? & _)|(m & _ & mon & _ & _ & Hmon & Henergy & Hlevel & _)];
      [done|].
    destruct (race mon) as [rc|] eqn:Hrace; [|done].
    injection Hlevel as Hlevel. by exists m, mon, rc.
  - assert (reaches_draw g type call st) as Hreach by (by exists i, near, r).
    destruct Hdraw as (drawn & r2 & _ & Hrest). cbv zeta in Hrest.
    destruct drawn as [rc0|]; [|by destruct Hrest].
    destruct Hrest as (info & placed & c & r3 & _ & Hrest).
    destruct placed; [|by destruct Hrest].
    destruct Hrest as (m & mon & mrace & _ & Hmon & Hrace & -> & Hrest).
    destruct delay.
    + destruct Hrest as (ms & Hms & ->).
      exists m, (delay_monster mon mrace (player st)), mrace.
      split; [by apply arr_set_get in Hms|].
      split; [by rewrite delay_monster_race|]. split; [done|].
      intros _. apply delay_monster_energy.
    + subst st'. exists m, mon, mrace. repeat split; try done.
      intros [|]; done.
Qed.
End SummonFacts.

(** X19.  The delay block always zeroes the monster's energy.  A monster
    faster than the player by one turn or more (speed plus nine, less the
    player's speed, at least ten) is held for
    [floor((speed + 9 - player speed) / 10)] turns, at least one; a monster
    within less than ten either way keeps its held timer as it was. *)
Theorem delay_monster_faster (mon : monster) (rc : monster_race) (p : player_t) :
  energy (delay_monster mon rc p) = 0
  /\ (10 <= speed rc + 9 - state_speed p ->
      m_timed_hold (delay_monster mon rc p) = (speed rc + 9 - state_speed p) / 10
      /\ 1 <= m_timed_hold (delay_monster mon rc p))
  /\ (-10 < speed rc + 9 - state_speed p < 10 ->
      m_timed_hold (delay_monster mon rc p) = m_timed_hold mon).
Proof.
  split; [apply delay_monster_energy|].
  rewrite delay_monster_hold.
  set (x := speed rc + 9 - state_speed p).
  split.
  - intros Hx. rewrite Z.quot_div_nonneg by lia.
    assert (1 <= x / 10) by (apply Z.div_le_lower_bound; lia).
    destruct (Z.eqb_spec (x / 10) 0); lia.
  - intros Hx. assert (Z.quot x 10 = 0) as ->; [|done].
    destruct (Z.le_gt_cases 0 x).
    + apply Z.quot_small. lia.
    + rewrite <- (Z.opp_involutive x), Z.quot_opp_l by lia.
      rewrite Z.quot_small by lia. done.
Qed.

(** ** The further statements at work on the concrete world *)

Lemma lookup_null_or_empty_witness :
  summon_name_to_idx None Demo.built = Ok (-1)
  /\ summon_name_to_idx (Some "KIN"%string) Demo.blank = Ok (-1).
Proof.
  split.
  - apply lookup_null_or_empty. by left.
  - apply lookup_null_or_empty. right. simpl. lia.
Defined.

Lemma lookup_first_match_witness :
  (1 = -1 /\ Forall (named_other "HOUND"%string) (summons Demo.built))
  \/ (0 <= 1 /\ first_named "HOUND"%string (summons Demo.built) (Z.to_nat 1)).
Proof.
  destruct (lookup_first_match "HOUND"%string Demo.built) as (_ & _ & H).
  - reflexivity.
  - apply H. reflexivity.
Defined.

Lemma lookup_of_name_is_index_witness :
  summon_name_to_idx (Some "HOUND"%string) Demo.built = Ok (Z.of_nat 1).
Proof.
  apply (lookup_of_name_is_index Demo.parsed Demo.blank Demo.built 1
           Demo.hounds).
  - reflexivity.
  - apply (bool_decide_unpack _). vm_compute. exact I.
  - apply (bool_decide_unpack _). vm_compute. exact I.
  - reflexivity.
  - reflexivity.
Defined.

Lemma fallbacks_resolved_witness :
  summon_message_type (Z.of_nat 3) Demo.built = Ok 4
  /\ exists f,
      summon_fallback_type (Z.of_nat 3) Demo.built = Ok f
      /\ 0 <= f < Z.of_nat (length Demo.parsed)
      /\ first_named "UNIQUE"%string Demo.parsed (Z.to_nat f).
Proof.
  apply (fallbacks_resolved Demo.parsed Demo.blank Demo.built 3 Demo.wraiths);
    reflexivity.
Defined.

Lemma create_summons_returns_iff_witness :
  (exists st', create_summons Demo.parsed Demo.blank = Ok st')
  <-> Forall (fun rec => forall s, fallback_name rec = Some s ->
                exists rec', rec' ∈ Demo.parsed /\ name rec' = Some s)
             Demo.parsed.
Proof.
  apply create_summons_returns_iff.
  apply (bool_decide_unpack _). vm_compute. exact I.
Defined.

Lemma accessors_unchecked_witness :
  summon_message_type (Z.of_nat (length Demo.parsed)) Demo.built = Ok 0
  /\ summon_fallback_type (Z.of_nat (length Demo.parsed)) Demo.built = Ok (-1).
Proof.
  destruct (accessors_unchecked Demo.parsed Demo.blank Demo.built)
    as (_ & _ & H); [reflexivity | exact H].
Defined.

Lemma create_summons_replaces_witness :
  create_summons Demo.parsed (set_registry Demo.blank 0 []) = Ok Demo.built.
Proof.
  destruct (create_summons_replaces Demo.parsed Demo.blank Demo.built 0 [])
    as (_ & _ & _ & _ & _ & _ & _ & _ & H); [reflexivity | exact H].
Defined.

Lemma okay_filters_witness :
  summon_specific_okay Demo.hound Demo.hound_call = Ok true.
Proof.
  destruct (okay_filters (W := Demo.world) Demo.hound Demo.hound_call
              (set_fallback Demo.hounds 0)) as (_ & _ & H); [reflexivity|].
  destruct H as [H _].
  - intros _. reflexivity.
  - intros _. left.
  - intros Hflag. exfalso. apply Hflag. reflexivity.
  - apply (H 0); [reflexivity | discriminate].
Defined.

Lemma okay_without_kin_witness :
  summon_specific_okay Demo.ancient_hound
                       (set_summon_specific_type Demo.no_kin 0)
  = Fault NullString.
Proof.
  apply (okay_without_kin (W := Demo.world) Demo.no_kin_parsed Demo.blank
           Demo.no_kin 0 Demo.ancient_hound (set_fallback Demo.uniques (-1))).
  - reflexivity.
  - apply (bool_decide_unpack _). vm_compute. exact I.
  - reflexivity.
  - intros Hno. discriminate Hno.
  - intros Hne. exfalso. apply Hne. reflexivity.
  - intros _. reflexivity.
Defined.

Lemma call_monster_pick_is_candidate_witness :
  1 <= 1 < cave_monster_max (cave Demo.hound_call)
  /\ exists mon rc,
      cave_monster (cave Demo.hound_call) 1 = Ok mon
      /\ race mon = Some rc
      /\ summon_specific_okay rc Demo.hound_call = Ok true
      /\ los (cave Demo.hound_call) (mk_loc 5 5) (grid mon) = false.
Proof.
  apply (call_monster_pick_is_candidate (W := Demo.world) (mk_loc 5 5)
           Demo.hound_call 1 1).
  reflexivity.
Defined.

Lemma call_monster_none_witness :
  call_monster (mk_loc 5 5) Demo.wraith_call = Ok (0, Demo.wraith_call).
Proof.
  apply (call_monster_none (W := Demo.world) (mk_loc 5 5) Demo.wraith_call
           (set_fallback Demo.wraiths 2) 0); reflexivity.
Defined.

Lemma call_monster_single_witness :
  call_monster_pick (mk_loc 5 1) Demo.hound_call
  = Ok (Some (2, snd (randint0 0 (rand Demo.hound_call)))).
Proof.
  apply (call_monster_single (W := Demo.world) (mk_loc 5 1) Demo.hound_call
           (set_fallback Demo.hounds 0) 0 2).
  - intros m r. simpl. destruct (Z.leb_spec m 1) as [Hle|Hgt]; simpl; [lia|].
    pose proof (Z.mod_pos_bound r m ltac:(lia)). lia.
  - reflexivity.
  - reflexivity.
  - reflexivity.
Defined.

Lemma call_monster_effect_witness :
  (good_monsters (mk_loc 5 5) Demo.hound_call = [] /\ 12 = 0
   /\ Demo.called = Demo.hound_call)
  \/ (exists i mon,
         i ∈ good_monsters (mk_loc 5 5) Demo.hound_call
         /\ cave_monster (cave Demo.called) i = Ok mon
         /\ energy mon = 0
         /\ level <$> race mon = Some 12
         /\ summon_specific_type Demo.called
            = summon_specific_type Demo.hound_call
         /\ mon_num_hook Demo.called = mon_num_hook Demo.hound_call
         /\ summons Demo.called = summons Demo.hound_call
         /\ summon_max Demo.called = summon_max Demo.hound_call
         /\ kin_base Demo.called = kin_base Demo.hound_call
         /\ player Demo.called = player Demo.hound_call).
Proof.
  apply (call_monster_effect (W := Demo.world)). reflexivity.
Defined.

Lemma location_search_first_legal_witness :
  legal_cell (cave Demo.hasted) (mk_loc 6 5)
  /\ fst (scattered_cells (cave Demo.hasted) (mk_loc 5 5) 0 60 0) !! Z.to_nat 0
     = Some (mk_loc 6 5).
Proof.
  destruct (location_search_first_legal (W := Demo.world) (cave Demo.hasted)
              (mk_loc 5 5) (mk_loc 0 0) (mk_loc 6 5) 0 1 0) as [_ H];
    [reflexivity|].
  destruct H as (Hlegal & Hnth & _); [lia|]. by split.
Defined.

Lemma summon_specific_frame_witness :
  summons Demo.conjured = summons Demo.hasted
  /\ summon_max Demo.conjured = summon_max Demo.hasted
  /\ kin_base Demo.conjured = kin_base Demo.hasted
  /\ player Demo.conjured = player Demo.hasted
  /\ summon_specific_type Demo.conjured
     = if fst (fst (location_search (cave Demo.hasted) (mk_loc 5 5) 0 60
                                    (mk_loc 0 0) (rand Demo.hasted))) =? 60
       then summon_specific_type Demo.hasted else 1.
Proof.
  apply (summon_specific_frame (W := Demo.world) (mk_loc 5 5) 3 1 true false
           Demo.hasted 12 Demo.conjured).
  reflexivity.
Defined.

Lemma calling_scheme_skipped_witness :
  reaches_draw (mk_loc 5 5) 2 false Demo.hasted
  /\ reaches_draw (mk_loc 5 5) 2 true Demo.hasted.
Proof.
  destruct (calling_scheme_skipped (W := Demo.world) (mk_loc 5 5) 2 true
              Demo.hasted 0 (mk_loc 6 5) 1) as (Hfalse & Hunique & _);
    [reflexivity | lia |].
  split; [exact Hfalse | apply Hunique; reflexivity].
Defined.

Lemma summon_specific_failed_draw_witness :
  summon_specific (mk_loc 5 5) 3 3 true false Demo.hasted
  = Ok (0, mk_state 3 5 0 Demo.registry None
                    (mk_chunk Demo.level_monsters 0 tt) (mk_player 5 130) 2).
Proof.
  destruct (summon_specific_failed_draw (W := Demo.world) (mk_loc 5 5) 3 3
              true false Demo.hasted (set_fallback Demo.wraiths 2) 0
              0 (mk_loc 6 5) 1 2) as (_ & _ & H).
  - reflexivity.
  - reflexivity.
  - unfold int_range. lia.
  - unfold int_range. simpl. lia.
  - unfold int_range. simpl. lia.
  - reflexivity.
  - lia.
  - reflexivity.
  - reflexivity.
  - exact H.
Defined.

Lemma summon_specific_nonzero_witness :
  exists m mon rc,
    cave_monster (cave Demo.conjured) m = Ok mon
    /\ race mon = Some rc /\ level rc = 12
    /\ (true = true \/ ~ reaches_draw (mk_loc 5 5) 1 false Demo.hasted ->
        energy mon = 0).
Proof.
  apply (summon_specific_nonzero (W := Demo.world) (mk_loc 5 5) 3 1 true false
           Demo.hasted 12 Demo.conjured).
  - reflexivity.
  - lia.
Defined.

Lemma delay_monster_faster_witness :
  m_timed_hold (delay_monster (mk_monster (Some Demo.ancient_hound)
                                          (mk_loc 6 5) 10 0)
                              Demo.ancient_hound (mk_player 5 110))
  = (speed Demo.ancient_hound + 9 - 110) / 10.
Proof.
  destruct (delay_monster_faster
              (mk_monster (Some Demo.ancient_hound) (mk_loc 6 5) 10 0)
              Demo.ancient_hound (mk_player 5 110)) as (_ & H & _).
  destruct H as [H _]; [simpl; lia | exact H].
Defined.


(** ** The type named "KIN" *)

(** C4.  When the active summon type is the one named "KIN" (the active
    record carries that name, and is the first of the table to do so, every
    record before it having a name of its own), [summon_specific_okay]
    returns, and admits a race exactly when it is not unique, its base is
    the kin base, and it passes each of the unique, base-list and race-flag
    checks of that record. *)
Theorem kin_okay_iff {Sq R : Type} {W : World Sq R} (rc : monster_race)
        (st : state Sq R) (s : summon) :
  summon_max st = Z.of_nat (length (summons st)) ->
  0 <= summon_specific_type st ->
  summons st !! Z.to_nat (summon_specific_type st) = Some s ->
  first_named "KIN"%string (summons st) (Z.to_nat (summon_specific_type st)) ->
  name s = Some "KIN"%string
  /\ exists b,
      summon_specific_okay rc st = Ok b
      /\ (b = true <->
          rf_has (flags rc) RF_UNIQUE = false
          /\ base rc = kin_base st
          /\ passes_unique s rc /\ passes_bases s rc /\ passes_race_flag s rc).
Proof.
  intros Hmax Hpos Hrec Hfirst. split.
  { destruct Hfirst as [(rec & Hrec' & Hname) _]. congruence. }
  apply kin_okay_at_lookup.
  - by apply arr_get_ok.
  - rewrite (summon_name_to_idx_lookup_in _ _ Hmax). cbn [lookup_in].
    rewrite (lookup_from_found _ _ _ 0 Hfirst). f_equal. lia.
Qed.

(** With "KIN" second in the table and the hounds' base as kin base, the
    hound is admitted and the dragon is not. *)
Lemma kin_okay_iff_witness :
  summon_specific_okay Demo.hound Demo.kin_call = Ok true
  /\ summon_specific_okay Demo.dragon Demo.kin_call = Ok false.
Proof.
  assert (Hfirst : first_named "KIN"%string (summons Demo.kin_call)
                               (Z.to_nat (summon_specific_type Demo.kin_call))).
  { split.
    - eexists. split; reflexivity.
    - intros [|k] rec Hk; [|simpl in Hk; lia].
      intros [= <-]. exists "UNIQUE"%string. split; [reflexivity|discriminate]. }
  split.
  - destruct (kin_okay_iff (W := Demo.world) Demo.hound Demo.kin_call
                (set_fallback Demo.kin (-1)))
      as (_ & b & -> & Hiff); [reflexivity | simpl; lia | reflexivity
                               | exact Hfirst |].
    f_equal. apply Hiff. split; [reflexivity|]. split; [reflexivity|].
    split; [intros _; reflexivity|].
    split; [intros Hne; exfalso; apply Hne; reflexivity|].
    intros Hne. exfalso. apply Hne. reflexivity.
  - destruct (kin_okay_iff (W := Demo.world) Demo.dragon Demo.kin_call
                (set_fallback Demo.kin (-1)))
      as (_ & b & -> & Hiff); [reflexivity | simpl; lia | reflexivity
                               | exact Hfirst |].
    f_equal. destruct b; [|reflexivity].
    destruct Hiff as [Hiff _]. destruct (Hiff eq_refl) as (_ & Hbase & _).
    discriminate Hbase.
Defined.
